(** * zomatoScraper: the link filter, the polling loop and the JSON store

    A shallow embedding of [zomato_scraper.py] (class [ZomatoScraper]) and of
    the script [ph_scraper.py], with the properties of the design document
    stated over it.

    Conventions of the embedding.
    - A Python [str] is a [string]; each [ascii] stands for one code point
      below 256.  On this range [str.lower] and the case folding of
      [re.IGNORECASE] are the Latin-1 ones written out in [Re.lower].
    - A Python [set] of [str] is a [gset string]; the order in which a [for]
      loop visits a set is not fixed by its elements, so it is an input of
      every tick ([iteration]).
    - A Python [int] is a [Z].
    - The browser, the file system and the operator are the environment: a
      tick receives what [find_elements] returned and the fate of the
      write; the file is held as what [json.load] makes of it. *)

From Stdlib Require Import Ascii ZArith Lia.
From stdpp Require Import gmap strings list.

Local Open Scope Z_scope.

Set Warnings "-register-all".

(** ** The fragment of Python's [re] used by the filter *)

Module Re.

(** [str.lower] on one code point below 256: A-Z, and the Latin-1 capitals
    U+00C0..U+00DE without the multiplication sign U+00D7, move up by 32. *)
Definition lower (c : ascii) : ascii :=
  let n := N_of_ascii c in
  if ((65 <=? n) && (n <=? 90) || (192 <=? n) && (n <=? 214)
      || (216 <=? n) && (n <=? 222))%N
  then ascii_of_N (n + 32) else c.

(** The one-character tests of the compiled pattern: [LITERAL], [NOT_LITERAL]
    and [ANY], as the engine runs them under [IGNORECASE] and without
    [DOTALL]. *)
Inductive charset : Type :=
  | Literal (c : ascii)
  | NotLiteral (c : ascii)
  | AnyChar.

Definition newline : ascii := ascii_of_N 10.

Definition accepts (k : charset) (x : ascii) : bool :=
  match k with
  | Literal c => bool_decide (lower x = lower c)
  | NotLiteral c => negb (bool_decide (lower x = lower c))
  | AnyChar => negb (bool_decide (x = newline))
  end.

(** A pattern is a sequence of nodes: the anchors [^] and [$], the two ends of
    a capturing group, one character, and a greedy repetition of one
    character with a lower bound (0 for [*], 1 for [+]). *)
Inductive node : Type :=
  | At_beginning
  | At_end
  | Mark_open
  | Mark_close
  | Single (k : charset)
  | MaxRepeat (lo : nat) (k : charset).

Definition pattern : Type := list node.

(** [$] without [MULTILINE]: at the end of the subject, or just before a
    newline that ends it. *)
Definition at_end (s : list ascii) : bool :=
  match s with
  | [] => true
  | [c] => bool_decide (c = newline)
  | _ => false
  end.

(** How many leading characters of [s] pass the test [k]. *)
Fixpoint count_prefix (k : charset) (s : list ascii) : nat :=
  match s with
  | c :: s' => if accepts k c then S (count_prefix k s') else 0%nat
  | [] => 0%nat
  end.

(** The spans (start, end) of the closed groups, in the order of closing. *)
Definition marks : Type := list (nat * nat).

(** The backtracking of a greedy repetition: [try n] runs the rest of the
    pattern after [n] characters; the repetition starts from the largest [n]
    and gives characters back one at a time, down to [lo]. *)
Fixpoint backtrack (try : nat → option marks) (lo n : nat) : option marks :=
  if bool_decide (n < lo)%nat then None else
  match try n with
  | Some g => Some g
  | None =>
      match n with
      | O => None
      | S n' => backtrack try lo n'
      end
  end.

(** The matcher.  [i] is the offset of [s] in the subject, [opened] the
    starts of the groups still open, [closed] the spans of the groups closed
    so far, last first. *)
Fixpoint sre_match (p : pattern) (i : nat) (s : list ascii)
    (opened : list nat) (closed : marks) : option marks :=
  match p with
  | [] => Some (rev closed)
  | At_beginning :: q =>
      if bool_decide (i = 0%nat) then sre_match q i s opened closed else None
  | At_end :: q =>
      if at_end s then sre_match q i s opened closed else None
  | Mark_open :: q => sre_match q i s (i :: opened) closed
  | Mark_close :: q =>
      match opened with
      | o :: os => sre_match q i s os ((o, i) :: closed)
      | [] => None
      end
  | Single k :: q =>
      match s with
      | c :: s' =>
          if accepts k c then sre_match q (S i) s' opened closed else None
      | [] => None
      end
  | MaxRepeat lo k :: q =>
      backtrack (fun n => sre_match q (i + n) (drop n s) opened closed)
                lo (count_prefix k s)
  end.

(** The ways a pattern can match, whatever the order in which the matcher
    tries them. *)
Inductive derives
    : pattern → nat → list ascii → list nat → marks → marks → Prop :=
  | derives_nil i s o c : derives [] i s o c (rev c)
  | derives_beginning q s o c g :
      derives q 0 s o c g → derives (At_beginning :: q) 0 s o c g
  | derives_end q i s o c g :
      at_end s = true → derives q i s o c g → derives (At_end :: q) i s o c g
  | derives_open q i s o c g :
      derives q i s (i :: o) c g → derives (Mark_open :: q) i s o c g
  | derives_close q i s b o c g :
      derives q i s o ((b, i) :: c) g →
      derives (Mark_close :: q) i s (b :: o) c g
  | derives_single k q i x s o c g :
      accepts k x = true → derives q (S i) s o c g →
      derives (Single k :: q) i (x :: s) o c g
  | derives_repeat lo k q i t s o c g :
      Forall (fun x => accepts k x = true) t → (lo ≤ length t)%nat →
      derives q (i + length t) s o c g →
      derives (MaxRepeat lo k :: q) i (t ++ s) o c g.

(** [pattern.search]: the first offset at which the pattern matches. *)
Fixpoint search_from (p : pattern) (i : nat) (s : list ascii) : option marks :=
  match sre_match p i s [] [] with
  | Some g => Some g
  | None =>
      match s with
      | [] => None
      | _ :: s' => search_from p (S i) s'
      end
  end.

(** A match object: the subject and the spans of its groups. *)
Record match_object : Type := MatchObject {
  subject : list ascii;
  spans : marks
}.

Definition search (p : pattern) (s : string) : option match_object :=
  let l := String.list_ascii_of_string s in
  MatchObject l <$> search_from p 0 l.

(** [m.group(n)] for [n >= 1]; a group that is not there reads as empty. *)
Definition group (m : match_object) (n : nat) : string :=
  match spans m !! pred n with
  | Some (b, e) =>
      String.string_of_list_ascii (take (e - b) (drop b (subject m)))
  | None => ""
  end.

(** A run of literal characters. *)
Definition literals (s : string) : pattern :=
  (fun c => Single (Literal c)) <$> String.list_ascii_of_string s.

(** The characters with a meaning of their own in a pattern.  A string free of
    them, spliced into a pattern, stands for itself. *)
Definition metachars : list ascii :=
  String.list_ascii_of_string ".^$*+?{}[]\|()".

Definition plain (s : string) : Prop :=
  Forall (fun c => c ∉ metachars) (String.list_ascii_of_string s).

End Re.

(** ** The scraper object *)

(** The attributes of a [ZomatoScraper] that the modelled methods read or
    write.  [driver] and [logger] are handles on the environment. *)
Record ZomatoScraper : Type := Scraper {
  base_url : string;
  city : string;
  city_url : string;
  output_file : string;
  next_id : Z
}.

Definition str_lower (s : string) : string :=
  String.string_of_list_ascii (Re.lower <$> String.list_ascii_of_string s).

(** [s.rstrip('/')]: drop the slashes that end [s]. *)
Fixpoint rstrip_slash (s : string) : string :=
  match s with
  | EmptyString => EmptyString
  | String c s' =>
      match rstrip_slash s' with
      | EmptyString => if bool_decide (c = "/"%char) then EmptyString
                       else String c EmptyString
      | r => String c r
      end
  end.

Definition __init__ (base_url city output_file : string) : ZomatoScraper :=
  let base_url := rstrip_slash base_url in
  let city := str_lower city in
  {| base_url := base_url;
     city := city;
     city_url := base_url +:+ "/" +:+ city;
     output_file := output_file;
     next_id := 1 |}.

Definition default_base_url : string := "https://www.zomato.com".
Definition default_city : string := "bangalore".
Definition default_output_file : string := "captured_urls.json".

Definition set_next_id (self : ZomatoScraper) (n : Z) : ZomatoScraper :=
  {| base_url := base_url self;
     city := city self;
     city_url := city_url self;
     output_file := output_file self;
     next_id := n |}.

(** ** Link extraction *)

(** What [el.get_attribute("href")] does on one element found by
    [find_elements]: it returns [None] or a string, or the element has gone
    stale and the call raises [StaleElementReferenceException]. *)
Inductive element : Type :=
  | Href (value : option string)
  | Stale.

Definition get_all_links (elements : list element) : list string :=
  foldl (fun hrefs el =>
           match el with
           | Href (Some href) =>
               if bool_decide (href = "") then hrefs else hrefs ++ [href]
           | Href None => hrefs
           | Stale => hrefs
           end) [] elements.

(** ** The URL filter *)

(** The pattern of [filter_restaurant_urls], compiled with [re.IGNORECASE]:
    start of subject; group 1 is the text https://www.zomato.com/ (the dot
    escaped), the city, a slash and one or more characters other than a
    slash; group 2 is the text /order and any number of characters other
    than a newline; end of subject.  The city is spliced into the pattern
    text as it is; the translation below reads it as literal characters,
    which is what the text means when the city is [Re.plain]. *)
Definition restaurant_pattern (city : string) : Re.pattern :=
  [Re.At_beginning; Re.Mark_open]
  ++ Re.literals "https://www.zomato.com/"
  ++ Re.literals city
  ++ Re.literals "/"
  ++ [Re.MaxRepeat 1 (Re.NotLiteral "/"); Re.Mark_close; Re.Mark_open]
  ++ Re.literals "/order"
  ++ [Re.MaxRepeat 0 Re.AnyChar; Re.Mark_close; Re.At_end].

Definition filter_restaurant_urls (self : ZomatoScraper) (urls : list string)
    : gset string :=
  foldl (fun restaurant_urls url =>
           match Re.search (restaurant_pattern (city self)) url with
           | Some m => {[ Re.group m 1 ]} ∪ restaurant_urls
           | None => restaurant_urls
           end) ∅ urls.

(** ** The persisted store *)

(** The values [json.load] returns. *)
Inductive json : Type :=
  | JNull
  | JBool (b : bool)
  | JInt (n : Z)
  | JFloat (lexeme : string)
  | JStr (s : string)
  | JArr (items : list json)
  | JObj (fields : list (string * json)).

(** A captured URL, the dict with the keys id and url that the loop builds. *)
Record item : Type := Item {
  id : Z;
  url : string
}.

Definition to_json (it : item) : json :=
  JObj [("id", JInt (id it)); ("url", JStr (url it))].

(** The output file as the program sees it: the value [json.load] reads from
    it, or a file that exists and that [open] or [json.load] fails on.  What
    [json.dump] writes is held as the value it was given. *)
Inductive file : Type :=
  | Parses (v : json)
  | Unreadable.

(** [None] when [os.path.exists] answers no. *)
Definition disk : Type := option file.

(** The fate of the write of one call, chosen by the environment: it goes
    through; [open] for writing fails and the file is as before; or [open]
    has truncated the file and [json.dump] fails part-way. *)
Inductive write_fate : Type :=
  | Written
  | OpenFails
  | DumpFails.

Inductive log_record : Type :=
  | Info_start
  | Info_stopped
  | Info_appended (new total : nat)
  | Error_reading
  | Error_writing.

(** The exceptions that no handler of the program catches. *)
Inductive exn : Type :=
  | AttributeError (obj attr : string).

Inductive completion (A : Type) : Type :=
  | Returns (a : A)
  | Raises (e : exn).
Arguments Returns {A} a.
Arguments Raises {A} e.

(** [data.extend(new_items)]: a method of lists only. *)
Definition extend (data : json) (new_items : list json) : completion json :=
  match data with
  | JArr l => Returns (JArr (l ++ new_items))
  | JNull => Raises (AttributeError "NoneType" "extend")
  | JBool _ => Raises (AttributeError "bool" "extend")
  | JInt _ => Raises (AttributeError "int" "extend")
  | JFloat _ => Raises (AttributeError "float" "extend")
  | JStr _ => Raises (AttributeError "str" "extend")
  | JObj _ => Raises (AttributeError "dict" "extend")
  end.

Definition json_len (data : json) : nat :=
  match data with
  | JArr l => length l
  | _ => 0%nat
  end.

(** [append_to_json_file]: the new content of the disk and the records
    logged, or the exception that leaves the method. *)
Definition append_to_json_file (fate : write_fate) (new_items : list json)
    (d : disk) : completion (disk * list log_record) :=
  let '(data, log) :=
    match d with
    | Some (Parses v) => (v, [])
    | Some Unreadable => (JArr [], [Error_reading])
    | None => (JArr [], [])
    end in
  match extend data new_items with
  | Raises e => Raises e
  | Returns data =>
      match fate with
      | Written =>
          Returns (Some (Parses data),
                   log ++ [Info_appended (length new_items) (json_len data)])
      | OpenFails => Returns (d, log ++ [Error_writing])
      | DumpFails => Returns (Some Unreadable, log ++ [Error_writing])
      end
  end.

(** The records held by the store: those of the array on disk, none when
    there is no file or no array to read. *)
Definition stored (d : disk) : list json :=
  match d with
  | Some (Parses (JArr l)) => l
  | _ => []
  end.

(** ** The polling loop *)

(** The order in which a [for] loop visits a set: some enumeration of its
    elements, each once. *)
Record iteration : Type := Iteration {
  visit :> gset string → list string;
  visit_perm : ∀ X, visit X ≡ₚ elements X
}.

(** What the environment hands to one iteration of the loop. *)
Record tick_input : Type := Tick {
  page : list element;
  order : iteration;
  fate : write_fate
}.

(** The object, the local [captured_urls], the disk, and what has been
    printed and logged. *)
Record state : Type := State {
  self : ZomatoScraper;
  captured_urls : gset string;
  files : disk;
  stdout : list item;
  log : list log_record
}.

(** The inner [for] loop: one item per new URL, numbered from [next_id]. *)
Definition new_items_of (self : ZomatoScraper) (new_urls : list string)
    : ZomatoScraper * list item :=
  foldl (fun '(self, new_items) url =>
           let it := {| id := next_id self; url := url |} in
           (set_next_id self (next_id self + 1), new_items ++ [it]))
        (self, []) new_urls.

(** One pass through the body of [while True]. *)
Definition tick (t : tick_input) (st : state) : state * option exn :=
  let all_links := get_all_links (page t) in
  let filtered_urls := filter_restaurant_urls (self st) all_links in
  let new_urls := filtered_urls ∖ captured_urls st in
  if bool_decide (new_urls = ∅) then (st, None) else
  let '(self', new_items) := new_items_of (self st) (order t new_urls) in
  match append_to_json_file (fate t) (to_json <$> new_items) (files st) with
  | Raises e =>
      ({| self := self'; captured_urls := captured_urls st;
          files := files st; stdout := stdout st ++ new_items;
          log := log st |}, Some e)
  | Returns (d, l) =>
      ({| self := self'; captured_urls := captured_urls st ∪ new_urls;
          files := d; stdout := stdout st ++ new_items;
          log := log st ++ l |}, None)
  end.

(** How a run ends: the operator interrupts it between two ticks, or an
    exception leaves the loop.  For an interrupt that arrives inside a tick
    see [interrupted_tick] below. *)
Inductive ending : Type :=
  | Interrupted
  | Failed (e : exn).

Fixpoint loop (ticks : list tick_input) (st : state) : state * ending :=
  match ticks with
  | [] => (st, Interrupted)
  | t :: ticks' =>
      match tick t st with
      | (st', None) => loop ticks' st'
      | (st', Some e) => (st', Failed e)
      end
  end.

Definition start (self : ZomatoScraper) (d : disk) : state :=
  {| self := self; captured_urls := ∅; files := d; stdout := [];
     log := [Info_start] |}.

Definition add_log (st : state) (r : log_record) : state :=
  {| self := self st; captured_urls := captured_urls st; files := files st;
     stdout := stdout st; log := log st ++ [r] |}.

(** [monitor_for_new_urls] over the ticks that run before the loop is left;
    the handler of [KeyboardInterrupt] logs the stop. *)
Definition monitor_for_new_urls (self : ZomatoScraper) (d : disk)
    (ticks : list tick_input) : state * ending :=
  match loop ticks (start self d) with
  | (st, Interrupted) => (add_log st Info_stopped, Interrupted)
  | (st, Failed e) => (st, Failed e)
  end.

(** The states a run passes through between two ticks. *)
Definition reachable (self : ZomatoScraper) (d : disk) (st : state) : Prop :=
  ∃ ticks, loop ticks (start self d) = (st, Interrupted).

(** What holds of a state of the loop started on the object [self0]: the
    object has changed in [next_id] only, which counts the records printed;
    their ids are consecutive from the first [next_id]; no URL is printed
    twice. *)
Record numbered (self0 : ZomatoScraper) (st : state) : Prop := Numbered {
  numbered_self :
    self st
    = set_next_id self0 (next_id self0 + Z.of_nat (length (stdout st)));
  numbered_ids :
    id <$> stdout st
    = (fun k => next_id self0 + Z.of_nat k) <$> seq 0 (length (stdout st));
  numbered_NoDup : NoDup (url <$> stdout st)
}.

(** Between two ticks the seen-set holds the URLs of the records printed. *)
Definition tracked (st : state) : Prop :=
  captured_urls st = list_to_set (url <$> stdout st).

(** Successive calls of [append_to_json_file] whose writes all go through. *)
Fixpoint append_all (batches : list (list json)) (d : disk)
    : completion disk :=
  match batches with
  | [] => Returns d
  | new_items :: batches' =>
      match append_to_json_file Written new_items d with
      | Returns (d', _) => append_all batches' d'
      | Raises e => Raises e
      end
  end.

(** No corruption: there is no file yet, or it holds an array. *)
Definition intact (d : disk) : Prop :=
  d = None ∨ ∃ l, d = Some (Parses (JArr l)).

(** The order of [elements], one admissible [iteration]. *)
Definition in_elements_order : iteration :=
  {| visit := elements; visit_perm := fun X => Permutation_refl (elements X) |}.

(** ** A run stopped inside a tick *)

(** The [try] of [monitor_for_new_urls] encloses the whole body of the loop
    and the handlers of [append_to_json_file] catch [Exception] only, so a
    [KeyboardInterrupt] can end the run anywhere in a tick.  The places
    below are those that differ in what they leave behind; [print] is taken
    as one step. *)

(** Where the interrupt arrives in [append_to_json_file]: before the file is
    read; once the data is read and extended, before the file is opened for
    writing; while the file is open for writing; when the write is over and
    its outcome is not logged yet. *)
Inductive append_point : Type :=
  | Before_load
  | After_load
  | During_dump
  | After_dump.

(** The disk and the records logged when the interrupt leaves
    [append_to_json_file] at [p]; [Raises] when [extend] has raised before
    the interrupt could arrive. *)
Definition interrupted_append (p : append_point) (fate : write_fate)
    (new_items : list json) (d : disk) : completion (disk * list log_record) :=
  match p with
  | Before_load => Returns (d, [])
  | _ =>
      let '(data, log) :=
        match d with
        | Some (Parses v) => (v, [])
        | Some Unreadable => (JArr [], [Error_reading])
        | None => (JArr [], [])
        end in
      match extend data new_items with
      | Raises e => Raises e
      | Returns data =>
          match p, fate with
          | During_dump, Written | During_dump, DumpFails =>
              Returns (Some Unreadable, log)
          | After_dump, Written => Returns (Some (Parses data), log)
          | After_dump, DumpFails => Returns (Some Unreadable, log)
          | _, _ => Returns (d, log)
          end
      end
  end.

(** Where the interrupt arrives in a tick that has new URLs: in the [for]
    loop, after [j] records are printed ([counted] when [next_id] is already
    incremented for the next one); in [append_to_json_file]; or after it has
    returned, before [captured_urls.update]. *)
Inductive interrupt : Type :=
  | In_items (j : nat) (counted : bool)
  | In_append (p : append_point)
  | Before_update.

(** The body of [while True] up to the interrupt.  A tick without new URLs
    changes nothing wherever it is stopped. *)
Definition interrupted_tick (t : tick_input) (w : interrupt) (st : state)
    : state * ending :=
  let all_links := get_all_links (page t) in
  let filtered_urls := filter_restaurant_urls (self st) all_links in
  let new_urls := filtered_urls ∖ captured_urls st in
  if bool_decide (new_urls = ∅) then (st, Interrupted) else
  match w with
  | In_items j counted =>
      let '(self', new_items) :=
        new_items_of (self st) (take j (order t new_urls)) in
      let self' :=
        if counted && bool_decide (j < length (order t new_urls))%nat
        then set_next_id self' (next_id self' + 1) else self' in
      ({| self := self'; captured_urls := captured_urls st;
          files := files st; stdout := stdout st ++ new_items;
          log := log st |}, Interrupted)
  | In_append p =>
      let '(self', new_items) := new_items_of (self st) (order t new_urls) in
      match interrupted_append p (fate t) (to_json <$> new_items) (files st)
      with
      | Raises e =>
          ({| self := self'; captured_urls := captured_urls st;
              files := files st; stdout := stdout st ++ new_items;
              log := log st |}, Failed e)
      | Returns (d, l) =>
          ({| self := self'; captured_urls := captured_urls st;
              files := d; stdout := stdout st ++ new_items;
              log := log st ++ l |}, Interrupted)
      end
  | Before_update =>
      let '(self', new_items) := new_items_of (self st) (order t new_urls) in
      match append_to_json_file (fate t) (to_json <$> new_items) (files st)
      with
      | Raises e =>
          ({| self := self'; captured_urls := captured_urls st;
              files := files st; stdout := stdout st ++ new_items;
              log := log st |}, Failed e)
      | Returns (d, l) =>
          ({| self := self'; captured_urls := captured_urls st;
              files := d; stdout := stdout st ++ new_items;
              log := log st ++ l |}, Interrupted)
      end
  end.

(** [monitor_for_new_urls] over the ticks that run to their end and, when
    [last] is given, the tick in which the interrupt arrives. *)
Definition monitor_for_new_urls_interrupted (self : ZomatoScraper) (d : disk)
    (ticks : list tick_input) (last : option (tick_input * interrupt))
    : state * ending :=
  match loop ticks (start self d) with
  | (st, Interrupted) =>
      match last with
      | None => (add_log st Info_stopped, Interrupted)
      | Some (t, w) =>
          match interrupted_tick t w st with
          | (st', Interrupted) => (add_log st' Info_stopped, Interrupted)
          | (st', Failed e) => (st', Failed e)
          end
      end
  | (st, Failed e) => (st, Failed e)
  end.

(** The file holds what is left of its content before the run, then some of
    the records printed, each once and in their order. *)
Definition holds_some_of (d : disk) (st : state) : Prop :=
  ∃ old new,
    stored (files st) = old ++ (to_json <$> new)
    ∧ old `sublist_of` stored d
    ∧ new `sublist_of` stdout st.

(** ** The phone-number script *)

(** The names a [ZomatoScraper] instance answers to: the attributes set by
    the constructor and the methods of the class. *)
Definition instance_attributes : list string :=
  ["base_url"; "city"; "city_url"; "driver"; "output_file"; "next_id";
   "logger"].

Definition class_methods : list string :=
  ["__init__"; "init_driver"; "load_page"; "get_all_links";
   "filter_restaurant_urls"; "append_to_json_file"; "monitor_for_new_urls"].

Definition getattr (name : string) : completion string :=
  if bool_decide (name ∈ instance_attributes ++ class_methods)
  then Returns name
  else Raises (AttributeError "ZomatoScraper" name).

Inductive script_event : Type :=
  | Loaded (url : string)
  | Printed_phone (of_url : string).

Definition url_list : list string :=
  ["https://www.zomato.com/bangalore/1947-jp-nagar-bangalore";
   "https://www.zomato.com/bangalore/1-bhk-bar-house-kitchen-1-koramangala-6th-block-bangalore"].

(** The loop of [ph_scraper.py]: load the page, look the method up on the
    scraper, print what it returned. *)
Fixpoint ph_loop (urls : list string) (trace : list script_event)
    : list script_event * option exn :=
  match urls with
  | [] => (trace, None)
  | url :: urls' =>
      let trace := trace ++ [Loaded url] in
      match getattr "extract_phone_number" with
      | Raises e => (trace, Some e)
      | Returns _ => ph_loop urls' (trace ++ [Printed_phone url])
      end
  end.

Definition ph_scraper : list script_event * option exn := ph_loop url_list [].

(** ** The URL families, in words *)

Abbreviation chars := String.list_ascii_of_string.

(** Equal up to the case of the letters. *)
Definition same_fold (a b : string) : Prop := str_lower a = str_lower b.

Definition no_slash (s : string) : Prop := "/"%char ∉ chars s.

(** What may follow in a subject up to its end: characters other than a
    newline, then nothing or one final newline. *)
Definition to_line_end (rest : string) : Prop :=
  ∃ t e, rest = t +:+ e ∧ (Re.newline ∉ chars t)
         ∧ (e = "" ∨ e = String Re.newline "").

(** A canonical restaurant URL of [city]: https://www.zomato.com/, the city,
    a slash and a non-empty slug without a slash, whatever the case of the
    letters, and nothing after the slug. *)
Definition canonical (city c : string) : Prop :=
  ∃ pre slug, c = pre +:+ slug
    ∧ same_fold pre ("https://www.zomato.com/" +:+ city +:+ "/")
    ∧ slug ≠ "" ∧ no_slash slug.

(** The family of the source's pattern: a canonical URL [c], then /order in
    any case, then the rest of the line. *)
Definition order_family (city u c : string) : Prop :=
  canonical city c
  ∧ ∃ ord rest, u = c +:+ ord +:+ rest ∧ same_fold ord "/order"
                ∧ to_line_end rest.

(** The family as the design document words it, with the group after the
    slug optional: a canonical URL [c] alone, or [c], a slash and the rest of
    the line. *)
Definition spec_family (city u c : string) : Prop :=
  canonical city c
  ∧ (u = c ∨ ∃ rest, u = c +:+ "/" +:+ rest ∧ to_line_end rest).

(** ** Example inputs *)

(** The scraper of [main]. *)
Definition example_scraper : ZomatoScraper :=
  __init__ default_base_url default_city default_output_file.

Definition url_abc : string := "https://www.zomato.com/bangalore/abc".
Definition url_xyz : string := "https://www.zomato.com/bangalore/xyz".

(** The links of the worked example of the design document. *)
Definition example_links : list string :=
  ["https://www.zomato.com/bangalore/abc/order123";
   "https://www.zomato.com/bangalore/abc/menu";
   "https://www.zomato.com/bangalore/xyz/order456"].

(** A tick on a page whose anchors carry the given links. *)
Definition example_tick (links : list string) (fate : write_fate)
    : tick_input :=
  {| page := (fun l => Href (Some l)) <$> links;
     order := in_elements_order;
     fate := fate |}.

(** ** The sitemap script *)

Module Sitemap.

(** The one-character tests of a pattern compiled without flags: letters
    match in their own case only. *)
Definition accepts (k : Re.charset) (x : ascii) : bool :=
  match k with
  | Re.Literal c => bool_decide (x = c)
  | Re.NotLiteral c => negb (bool_decide (x = c))
  | Re.AnyChar => negb (bool_decide (x = Re.newline))
  end.

Fixpoint count_prefix (k : Re.charset) (s : list ascii) : nat :=
  match s with
  | c :: s' => if accepts k c then S (count_prefix k s') else 0%nat
  | [] => 0%nat
  end.

(** A match: the offset at which it ends and the spans of its groups. *)
Definition found : Type := nat * Re.marks.

Fixpoint backtrack (try : nat → option found) (lo n : nat) : option found :=
  if bool_decide (n < lo)%nat then None else
  match try n with
  | Some r => Some r
  | None =>
      match n with
      | O => None
      | S n' => backtrack try lo n'
      end
  end.

(** The matcher of [Re.sre_match] with the tests above; it also returns
    where the match ends, which [findall] needs to go on. *)
Fixpoint sre_match (p : Re.pattern) (i : nat) (s : list ascii)
    (opened : list nat) (closed : Re.marks) : option found :=
  match p with
  | [] => Some (i, rev closed)
  | Re.At_beginning :: q =>
      if bool_decide (i = 0%nat) then sre_match q i s opened closed else None
  | Re.At_end :: q =>
      if Re.at_end s then sre_match q i s opened closed else None
  | Re.Mark_open :: q => sre_match q i s (i :: opened) closed
  | Re.Mark_close :: q =>
      match opened with
      | o :: os => sre_match q i s os ((o, i) :: closed)
      | [] => None
      end
  | Re.Single k :: q =>
      match s with
      | c :: s' =>
          if accepts k c then sre_match q (S i) s' opened closed else None
      | [] => None
      end
  | Re.MaxRepeat lo k :: q =>
      backtrack (fun n => sre_match q (i + n) (drop n s) opened closed)
                lo (count_prefix k s)
  end.

(** [re.findall] for a pattern with one group, whose matches are never
    empty: the subject is scanned from left to right; [s] is what is left of
    it from offset [i] on, and [skip] counts the characters still inside the
    last match, where no match may start. *)
Fixpoint findall_scan (p : Re.pattern) (subject : list ascii) (i : nat)
    (s : list ascii) (skip : nat) : list string :=
  match skip with
  | S skip' =>
      match s with
      | [] => []
      | _ :: s' => findall_scan p subject (S i) s' skip'
      end
  | O =>
      match sre_match p i s [] [] with
      | Some (e, g) =>
          Re.group (Re.MatchObject subject g) 1
          :: match s with
             | [] => []
             | _ :: s' => findall_scan p subject (S i) s' (e - S i)
             end
      | None =>
          match s with
          | [] => []
          | _ :: s' => findall_scan p subject (S i) s' 0
          end
      end
  end.

Definition findall (p : Re.pattern) (s : string) : list string :=
  findall_scan p (chars s) 0 (chars s) 0.

Definition prefix : string := "https://www.zomato.com/bangalore/".

(** The pattern of the script: the text of [prefix] (slashes and dots
    escaped), a group of one or more characters other than a slash, and a
    slash. *)
Definition pattern : Re.pattern :=
  Re.literals prefix
  ++ [Re.Mark_open; Re.MaxRepeat 1 (Re.NotLiteral "/"); Re.Mark_close]
  ++ Re.literals "/".

(** The list comprehension over [enumerate(unique_urls)]. *)
Definition url_list (order : iteration) (xml_data : string) : list item :=
  let matches := findall pattern xml_data in
  let unique_urls : gset string := list_to_set matches in
  imap (fun index url =>
          {| id := Z.of_nat index + 1; url := prefix +:+ url |})
       (order unique_urls).

(** What the script leaves in zomato_urls.json. *)
Definition sitemap_url_extract (order : iteration) (xml_data : string)
    : file :=
  Parses (JArr (to_json <$> url_list order xml_data)).

(** A piece of sitemap with two entries, one of them twice. *)
Definition example_xml : string :=
  "<loc>https://www.zomato.com/bangalore/abc/info</loc> <loc>https://www.zomato.com/bangalore/xyz/order</loc> <loc>https://www.zomato.com/bangalore/abc/menu</loc>".

End Sitemap.

(** * Proofs *)

Set Warnings "-clear-no-such-hyp".

(** ** The matcher against its derivations *)

Lemma backtrack_Some try lo n g :
  Re.backtrack try lo n = Some g → ∃ m, (lo ≤ m ≤ n)%nat ∧ try m = Some g.
Proof.
  induction n as [|n IH]; simpl; case_bool_decide; try done.
  - destruct (try 0%nat) eqn:E; [|done]. intros [= <-]. exists 0%nat. split; [lia|done].
  - destruct (try (S n)) eqn:E.
    + intros [= <-]. exists (S n). split; [lia|done].
    + intros H'. destruct (IH H') as (m & ? & ?). exists m. split; [lia|done].
Qed.

Lemma backtrack_complete try lo n m :
  (lo ≤ m ≤ n)%nat → is_Some (try m) → is_Some (Re.backtrack try lo n).
Proof.
  intros Hm Hs. induction n as [|n IH]; simpl; case_bool_decide; try lia.
  - assert (m = 0%nat) as -> by lia. destruct Hs as [g ->]. eauto.
  - destruct (try (S n)) eqn:E; [eauto|].
    apply IH. destruct (decide (m = S n)) as [->|]; [|lia].
    rewrite E in Hs. by destruct Hs.
Qed.

Lemma count_prefix_take k s n :
  (n ≤ Re.count_prefix k s)%nat →
  Forall (fun x => Re.accepts k x = true) (take n s) ∧ length (take n s) = n.
Proof.
  revert n. induction s as [|c s IH]; intros n; simpl.
  - intros ?. assert (n = 0%nat) as -> by lia. by split.
  - destruct (Re.accepts k c) eqn:E.
    + destruct n as [|n]; simpl; [by split|]. intros Hn.
      destruct (IH n) as [? ?]; [lia|]. split; [by constructor|lia].
    + intros ?. assert (n = 0%nat) as -> by lia. by split.
Qed.

Lemma count_prefix_app k t s :
  Forall (fun x => Re.accepts k x = true) t →
  (length t ≤ Re.count_prefix k (t ++ s))%nat.
Proof.
  induction 1 as [|x t Hx _ IH]; simpl; [lia|]. rewrite Hx. lia.
Qed.

Lemma sre_match_derives p i s o c g :
  Re.sre_match p i s o c = Some g → Re.derives p i s o c g.
Proof.
  revert i s o c. induction p as [|n q IH]; intros i s o c; simpl.
  - intros [= <-]. constructor.
  - destruct n.
    + case_bool_decide; [|done]. subst i. intros. constructor. auto.
    + destruct (Re.at_end s) eqn:E; [|done]. intros. constructor; auto.
    + intros. constructor. auto.
    + destruct o as [|b o]; [done|]. intros. constructor. auto.
    + destruct s as [|x s]; [done|]. destruct (Re.accepts k x) eqn:E; [|done].
      intros. constructor; auto.
    + intros H. apply backtrack_Some in H as (m & Hm & H).
      destruct (count_prefix_take k s m) as [Hall Hlen]; [lia|].
      rewrite <-(take_drop m s) at 1. apply IH in H.
      constructor; [done|lia|]. by rewrite Hlen.
Qed.

Lemma derives_sre_match p i s o c g :
  Re.derives p i s o c g → is_Some (Re.sre_match p i s o c).
Proof.
  induction 1; simpl; try done.
  - by rewrite H.
  - by rewrite H.
  - apply (backtrack_complete _ _ _ (length t)).
    + split; [done|]. by apply count_prefix_app.
    + by rewrite drop_app_length.
Qed.

Lemma chars_app a b : chars (a +:+ b) = chars a ++ chars b.
Proof. induction a as [|x a IH]; simpl; [done|]. by rewrite <-IH. Qed.

Lemma lower_slash x : Re.lower x = "/"%char → x = "/"%char.
Proof.
  destruct x as [[] [] [] [] [] [] [] []]; vm_compute; congruence.
Qed.

Lemma accepts_not_slash x :
  Re.accepts (Re.NotLiteral "/") x = true ↔ x ≠ "/"%char.
Proof.
  simpl. rewrite negb_true_iff, bool_decide_eq_false. split.
  - intros H ->. by apply H.
  - intros H E. by apply H, lower_slash.
Qed.

Lemma accepts_any x : Re.accepts Re.AnyChar x = true ↔ x ≠ Re.newline.
Proof. simpl. by rewrite negb_true_iff, bool_decide_eq_false. Qed.

Lemma at_end_true e : Re.at_end e = true ↔ e = [] ∨ e = [Re.newline].
Proof.
  destruct e as [|x [|y e]]; simpl.
  - split; [by left|done].
  - rewrite bool_decide_eq_true. split.
    + intros ->. by right.
    + intros [?|[= ->]]; done.
  - split; [done|]. intros [?|?]; done.
Qed.

Lemma derives_literal_run l q i s o c g :
  Re.derives (((fun x => Re.Single (Re.Literal x)) <$> l) ++ q) i s o c g ↔
  ∃ t s', s = t ++ s' ∧ Re.lower <$> t = Re.lower <$> l
          ∧ Re.derives q (i + length l) s' o c g.
Proof.
  revert i s. induction l as [|a l IH]; intros i s; simpl.
  - rewrite Nat.add_0_r. split.
    + intros H. by exists [], s.
    + intros (t & s' & -> & Hf & H). by destruct t.
  - split.
    + intros H. inversion H as [| | | | |k q' i' x s0 o' c' g' Hx Hd|]; subst.
      apply IH in Hd as (t & s' & -> & Hf & Hd).
      exists (x :: t), s'. split; [done|]. split.
      * simpl in *. apply bool_decide_eq_true in Hx. by f_equal.
      * by replace (i + S (length l))%nat with (S i + length l)%nat by lia.
    + intros (t & s' & -> & Hf & Hd). destruct t as [|x t]; [done|].
      simpl in Hf. injection Hf as Hx Hf. simpl. constructor.
      * simpl. by apply bool_decide_eq_true.
      * apply IH. exists t, s'. split; [done|]. split; [done|].
        by replace (S i + length l)%nat with (i + S (length l))%nat by lia.
Qed.

Lemma fmap_lower_length (t l : list ascii) :
  Re.lower <$> t = Re.lower <$> l → length t = length l.
Proof. intros H. by rewrite <-(length_fmap Re.lower t), H, length_fmap. Qed.

Lemma order_shape_derives (P O : list ascii) s g :
  Re.derives
    ([Re.At_beginning; Re.Mark_open]
     ++ ((fun x => Re.Single (Re.Literal x)) <$> P)
     ++ [Re.MaxRepeat 1 (Re.NotLiteral "/"); Re.Mark_close; Re.Mark_open]
     ++ ((fun x => Re.Single (Re.Literal x)) <$> O)
     ++ [Re.MaxRepeat 0 Re.AnyChar; Re.Mark_close; Re.At_end])
    0 s [] [] g ↔
  ∃ pre slug ord t e,
    s = pre ++ slug ++ ord ++ t ++ e
    ∧ Re.lower <$> pre = Re.lower <$> P
    ∧ slug ≠ [] ∧ ("/"%char ∉ slug)
    ∧ Re.lower <$> ord = Re.lower <$> O
    ∧ (Re.newline ∉ t) ∧ (e = [] ∨ e = [Re.newline])
    ∧ g = [(0, length pre + length slug);
           (length pre + length slug,
            length pre + length slug + length ord + length t)]%nat.
Proof.
  simpl app at 1. split.
  - intros H.
    inversion H as [|q0 s0 o0 c0 g0 H1| | | | |]; subst; clear H.
    inversion H1 as [| | |q0 i0 s0 o0 c0 g0 H2| | |]; subst; clear H1.
    apply derives_literal_run in H2 as (pre & s1 & -> & Hf1 & H).
    simpl app in H.
    inversion H as [| | | | | |lo k q0 i0 slug s4 o0 c0 g0 Hslug Hlo H1];
      subst; clear H.
    inversion H1 as [| | | |q0 i0 s0 b0 o0 c0 g0 H2| |]; subst; clear H1.
    inversion H2 as [| | |q0 i0 s0 o0 c0 g0 H1| | |]; subst; clear H2.
    apply derives_literal_run in H1 as (ord & s5 & -> & Hf4 & H).
    simpl app in H.
    inversion H as [| | | | | |lo k q0 i0 t s6 o0 c0 g0 Ht _ H1];
      subst; clear H.
    inversion H1 as [| | | |q0 i0 s0 b0 o0 c0 g0 H2| |]; subst; clear H1.
    inversion H2 as [| |q0 i0 s0 o0 c0 g0 He H1| | | |]; subst; clear H2.
    inversion H1; subst; clear H1.
    exists pre, slug, ord, t, s6.
    pose proof (fmap_lower_length _ _ Hf1) as L1.
    pose proof (fmap_lower_length _ _ Hf4) as L4.
    split; [done|]. split; [done|].
    split; [destruct slug; simpl in *; [lia|done]|].
    split.
    { intros Hin. rewrite Forall_forall in Hslug.
      apply Hslug, accepts_not_slash in Hin. done. }
    split; [done|]. split.
    { intros Hin. rewrite Forall_forall in Ht.
      apply Ht, accepts_any in Hin. done. }
    split; [by apply at_end_true|].
    simpl. rewrite <-L1, <-L4. repeat f_equal; lia.
  - intros (pre & slug & ord & t & e & -> & Hpre & Hne & Hslug & Hord & Ht
            & He & ->).
    pose proof (fmap_lower_length _ _ Hpre) as L1.
    pose proof (fmap_lower_length _ _ Hord) as L4.
    constructor. constructor.
    apply derives_literal_run. exists pre, (slug ++ ord ++ t ++ e).
    split; [done|]. split; [done|].
    simpl app. constructor.
    { apply Forall_forall. intros x Hx. apply accepts_not_slash.
      intros ->. done. }
    { destruct slug; [done|simpl; lia]. }
    constructor. constructor.
    apply derives_literal_run. exists ord, (t ++ e).
    split; [done|]. split; [done|].
    simpl app. constructor.
    { apply Forall_forall. intros x Hx. apply accepts_any. intros ->. done. }
    { lia. }
    constructor. constructor; [by apply at_end_true|].
    rewrite <-L1, <-L4.
    match goal with |- Re.derives [] ?i ?s ?o ?c ?g =>
      replace g with (rev c); [constructor|] end.
    simpl. repeat f_equal; lia.
Qed.

Lemma restaurant_pattern_shape city :
  restaurant_pattern city =
  [Re.At_beginning; Re.Mark_open]
  ++ ((fun x => Re.Single (Re.Literal x))
        <$> chars ("https://www.zomato.com/" +:+ city +:+ "/"))
  ++ [Re.MaxRepeat 1 (Re.NotLiteral "/"); Re.Mark_close; Re.Mark_open]
  ++ ((fun x => Re.Single (Re.Literal x)) <$> chars "/order")
  ++ [Re.MaxRepeat 0 Re.AnyChar; Re.Mark_close; Re.At_end].
Proof.
  unfold restaurant_pattern, Re.literals.
  rewrite !chars_app, !fmap_app, <-!app_assoc. done.
Qed.

Lemma of_chars_app (a b : list ascii) :
  String.string_of_list_ascii (a ++ b)
  = String.string_of_list_ascii a +:+ String.string_of_list_ascii b.
Proof. induction a as [|x a IH]; simpl; [done|]. by rewrite IH. Qed.

Lemma str_app_assoc (a b c : string) : (a +:+ b) +:+ c = a +:+ b +:+ c.
Proof.
  rewrite <-(String.string_of_list_ascii_of_string ((a +:+ b) +:+ c)).
  rewrite <-(String.string_of_list_ascii_of_string (a +:+ b +:+ c)).
  by rewrite !chars_app, app_assoc.
Qed.

Lemma chars_of (l : list ascii) : chars (String.string_of_list_ascii l) = l.
Proof. apply String.list_ascii_of_string_of_list_ascii. Qed.

Lemma of_chars (s : string) : String.string_of_list_ascii (chars s) = s.
Proof. apply String.string_of_list_ascii_of_string. Qed.

Lemma same_fold_chars a b :
  same_fold a b ↔ Re.lower <$> chars a = Re.lower <$> chars b.
Proof.
  unfold same_fold, str_lower. split.
  - intros H. apply (f_equal chars) in H. by rewrite !chars_of in H.
  - by intros ->.
Qed.

(** ** [search] on a pattern anchored at the beginning *)

Lemma search_from_later q i s :
  Re.search_from (Re.At_beginning :: q) (S i) s = None.
Proof. revert i. induction s as [|x s IH]; intros i; simpl; [done|]. apply IH. Qed.

Lemma search_from_anchored q s :
  Re.search_from (Re.At_beginning :: q) 0 s
  = Re.sre_match (Re.At_beginning :: q) 0 s [] [].
Proof.
  destruct s as [|x s]; simpl.
  - by destruct (Re.sre_match q 0 [] [] []).
  - destruct (Re.sre_match q 0 (x :: s) [] []); [done|].
    apply search_from_later.
Qed.

Lemma search_from_restaurant city s :
  Re.search_from (restaurant_pattern city) 0 s
  = Re.sre_match (restaurant_pattern city) 0 s [] [].
Proof. apply search_from_anchored. Qed.

(** ** The slug is fixed by the subject *)

Lemma slash_split (l1 l2 r1 r2 : list ascii) :
  l1 ++ "/"%char :: r1 = l2 ++ "/"%char :: r2 →
  ("/"%char ∉ l1) → ("/"%char ∉ l2) → l1 = l2.
Proof.
  revert l2. induction l1 as [|x l1 IH]; intros [|y l2]; simpl; intros E H1 H2.
  - done.
  - injection E as <- _. exfalso. apply H2. left.
  - injection E as -> _. exfalso. apply H1. left.
  - injection E as -> E. f_equal. apply (IH l2 E).
    + intros ?. apply H1. by right.
    + intros ?. apply H2. by right.
Qed.

Lemma fold_order_head (ord : list ascii) :
  Re.lower <$> ord = Re.lower <$> chars "/order" →
  ∃ r, ord = "/"%char :: r.
Proof.
  destruct ord as [|x r]; [done|]. simpl. intros [= Hx _].
  exists r. f_equal. by apply lower_slash.
Qed.

Lemma app_same_length {A} (a a' b b' : list A) :
  a ++ b = a' ++ b' → length a = length a' → a = a' ∧ b = b'.
Proof.
  revert a'. induction a as [|x a IH]; intros [|y a']; simpl; try done.
  intros [= -> E] [= L]. destruct (IH _ E L) as [-> ->]. done.
Qed.

(** ** The matcher on the restaurant pattern *)

Lemma sre_match_restaurant city l g :
  Re.sre_match (restaurant_pattern city) 0 l [] [] = Some g →
  ∃ pre slug ord t e,
    l = pre ++ slug ++ ord ++ t ++ e
    ∧ Re.lower <$> pre
      = Re.lower <$> chars ("https://www.zomato.com/" +:+ city +:+ "/")
    ∧ slug ≠ [] ∧ ("/"%char ∉ slug)
    ∧ Re.lower <$> ord = Re.lower <$> chars "/order"
    ∧ (Re.newline ∉ t) ∧ (e = [] ∨ e = [Re.newline])
    ∧ g !! 0%nat = Some (0, length (pre ++ slug))%nat.
Proof.
  intros H. apply sre_match_derives in H.
  rewrite restaurant_pattern_shape in H.
  apply order_shape_derives in H
    as (pre & slug & ord & t & e & ? & ? & ? & ? & ? & ? & ? & ->).
  exists pre, slug, ord, t, e. rewrite length_app. done.
Qed.

Lemma restaurant_sre_match city (pre slug ord t e : list ascii) :
  Re.lower <$> pre
    = Re.lower <$> chars ("https://www.zomato.com/" +:+ city +:+ "/") →
  slug ≠ [] → ("/"%char ∉ slug) →
  Re.lower <$> ord = Re.lower <$> chars "/order" →
  (Re.newline ∉ t) → (e = [] ∨ e = [Re.newline]) →
  ∃ g, Re.sre_match (restaurant_pattern city) 0
         (pre ++ slug ++ ord ++ t ++ e) [] [] = Some g
       ∧ g !! 0%nat = Some (0, length (pre ++ slug))%nat.
Proof.
  intros Hpre Hne Hslug Hord Ht He.
  destruct (derives_sre_match (restaurant_pattern city) 0
              (pre ++ slug ++ ord ++ t ++ e) [] []
              [(0, length pre + length slug);
               (length pre + length slug,
                length pre + length slug + length ord + length t)]%nat)
    as [g Hg].
  { rewrite restaurant_pattern_shape. apply order_shape_derives.
    by exists pre, slug, ord, t, e. }
  exists g. split; [done|].
  destruct (sre_match_restaurant _ _ _ Hg)
    as (pre' & slug' & ord' & t' & e' & E & Hpre' & _ & Hslug' & Hord' & _
        & _ & ->).
  do 2 f_equal.
  destruct (app_same_length pre pre' _ _ E) as [<- E'].
  { transitivity (length (chars ("https://www.zomato.com/" +:+ city +:+ "/")));
      [|symmetry]; by apply fmap_lower_length. }
  destruct (fold_order_head _ Hord) as [r ->].
  destruct (fold_order_head _ Hord') as [r' ->].
  simpl in E'. by rewrite (slash_split _ _ _ _ E' Hslug Hslug').
Qed.

Lemma group_1 l g n :
  g !! 0%nat = Some (0, n)%nat →
  Re.group (Re.MatchObject l g) 1 = String.string_of_list_ascii (take n l).
Proof. unfold Re.group. simpl. intros ->. by rewrite Nat.sub_0_r. Qed.

Lemma search_order_family city u m :
  Re.search (restaurant_pattern city) u = Some m →
  order_family city u (Re.group m 1).
Proof.
  unfold Re.search.
  destruct (Re.search_from _ _ _) as [g|] eqn:H; [|done]. intros [= <-].
  rewrite search_from_restaurant in H.
  apply sre_match_restaurant in H
    as (pre & slug & ord & t & e & E & Hpre & Hne & Hslug & Hord & Ht & He
        & Hg).
  rewrite (group_1 _ _ _ Hg), E, app_assoc, take_app_length, of_chars_app.
  apply (f_equal String.string_of_list_ascii) in E.
  rewrite of_chars, !of_chars_app in E.
  split.
  - exists (String.string_of_list_ascii pre), (String.string_of_list_ascii slug).
    split; [done|]. split; [by rewrite same_fold_chars, chars_of|].
    split.
    + intros H. apply (f_equal chars) in H. by rewrite chars_of in H.
    + unfold no_slash. by rewrite chars_of.
  - exists (String.string_of_list_ascii ord),
      (String.string_of_list_ascii t +:+ String.string_of_list_ascii e).
    split.
    { by rewrite E, str_app_assoc. }
    split; [by rewrite same_fold_chars, chars_of|].
    exists (String.string_of_list_ascii t), (String.string_of_list_ascii e).
    split; [done|]. split; [by rewrite chars_of|].
    destruct He as [->| ->]; [by left|by right].
Qed.

Lemma order_family_search city u c :
  order_family city u c →
  ∃ m, Re.search (restaurant_pattern city) u = Some m ∧ Re.group m 1 = c.
Proof.
  intros [(pre & slug & -> & Hpre & Hne & Hslug)
          (ord & rest & -> & Hord & t & e & -> & Ht & He)].
  apply same_fold_chars in Hpre, Hord.
  destruct (restaurant_sre_match city (chars pre) (chars slug) (chars ord)
              (chars t) (chars e)) as (g & Hg & Hg0); try done.
  { intros H. apply Hne. by rewrite <-(of_chars slug), H. }
  { destruct He as [->| ->]; [by left|by right]. }
  exists (Re.MatchObject (chars ((pre +:+ slug) +:+ ord +:+ t +:+ e)) g).
  split.
  - unfold Re.search. rewrite search_from_restaurant.
    rewrite !chars_app, <-!app_assoc. by rewrite Hg.
  - rewrite (group_1 _ _ _ Hg0), !chars_app, <-!app_assoc.
    rewrite (app_assoc (chars pre)), take_app_length, of_chars_app.
    by rewrite !of_chars.
Qed.

(** ** Membership in the filter's result *)

Lemma elem_of_filter_restaurant_urls self urls c :
  c ∈ filter_restaurant_urls self urls ↔
  ∃ u m, u ∈ urls ∧ Re.search (restaurant_pattern (city self)) u = Some m
         ∧ Re.group m 1 = c.
Proof.
  unfold filter_restaurant_urls.
  assert (∀ acc : gset string,
    c ∈ foldl (fun restaurant_urls url =>
           match Re.search (restaurant_pattern (city self)) url with
           | Some m => {[ Re.group m 1 ]} ∪ restaurant_urls
           | None => restaurant_urls
           end) acc urls ↔
    c ∈ acc ∨ ∃ u m, u ∈ urls
      ∧ Re.search (restaurant_pattern (city self)) u = Some m
      ∧ Re.group m 1 = c) as G.
  { induction urls as [|u urls IH]; intros acc; simpl.
    - split; [by left|]. intros [?|(u & m & Hu & _)]; [done|].
      by apply elem_of_nil in Hu.
    - rewrite IH. destruct (Re.search _ u) as [m|] eqn:E.
      + rewrite elem_of_union, elem_of_singleton. split.
        * intros [[->|?]|(u' & m' & ? & ? & ?)].
          -- right. exists u, m. split; [left|done].
          -- by left.
          -- right. exists u', m'. split; [by right|done].
        * intros [?|(u' & m' & Hu & Hs & Hg)]; [by left; right|].
          apply elem_of_cons in Hu as [->|Hu].
          -- left. left. rewrite E in Hs. by injection Hs as <-.
          -- right. by exists u', m'.
      + split.
        * intros [?|(u' & m' & ? & ? & ?)]; [by left|].
          right. exists u', m'. split; [by right|done].
        * intros [?|(u' & m' & Hu & Hs & Hg)]; [by left|].
          apply elem_of_cons in Hu as [->|Hu]; [congruence|].
          right. by exists u', m'. }
  rewrite G. split.
  - intros [H|?]; [|done]. by apply elem_of_empty in H.
  - by right.
Qed.

Lemma filter_restaurant_urls_singleton self u :
  filter_restaurant_urls self [u]
  = match Re.search (restaurant_pattern (city self)) u with
    | Some m => {[ Re.group m 1 ]}
    | None => ∅
    end.
Proof.
  unfold filter_restaurant_urls. simpl.
  destruct (Re.search _ u); [|done]. apply union_empty_r_L.
Qed.

Lemma canonical_not_order_family city c x :
  canonical city c → ¬ order_family city c x.
Proof.
  intros (pre & slug & -> & Hpre & _ & Hslug)
         [(pre' & slug' & -> & Hpre' & _ & _) (ord & rest & E & Hord & _)].
  apply same_fold_chars in Hpre, Hpre', Hord.
  apply (f_equal chars) in E. rewrite !chars_app, <-!app_assoc in E.
  destruct (app_same_length _ _ _ _ E) as [_ E'].
  { transitivity (length (chars ("https://www.zomato.com/" +:+ city +:+ "/")));
      [|symmetry]; by apply fmap_lower_length. }
  destruct (fold_order_head _ Hord) as [r Hr]. rewrite Hr in E'.
  apply Hslug. rewrite E'. rewrite !elem_of_app. right. left. left.
Qed.

Lemma canonical_order_family city c :
  canonical city c → order_family city (c +:+ "/order") c.
Proof.
  intros Hc. split; [done|]. exists "/order", "". split; [done|].
  split; [done|]. exists "", "". split; [done|]. split; [|by left].
  apply not_elem_of_nil.
Qed.

Lemma url_abc_canonical : canonical (city example_scraper) url_abc.
Proof.
  exists "https://www.zomato.com/bangalore/", "abc".
  split; [reflexivity|]. split; [reflexivity|]. split; [done|].
  compute_done.
Qed.

(** ** The filter *)

(** C1, as amended.  The set returned by [filter_restaurant_urls] contains [c]
    exactly when some input URL is [c] followed by /order, in any case, and
    by the rest of the line, where [c] is https://www.zomato.com/, the
    city, a slash and a non-empty slug without a slash, in any case: the
    suffix is mandatory and starts with /order, and [c] is the URL cut
    right after the slug. *)
Theorem filter_admits_order_family self urls c :
  Re.plain (city self) →
  c ∈ filter_restaurant_urls self urls
  ↔ ∃ u, u ∈ urls ∧ order_family (city self) u c.
Proof.
  intros _. rewrite elem_of_filter_restaurant_urls. split.
  - intros (u & m & Hu & Hs & <-). exists u. split; [done|].
    by apply search_order_family.
  - intros (u & Hu & Hf). apply order_family_search in Hf as (m & ? & ?).
    by exists u, m.
Qed.

Lemma filter_admits_order_family_witness :
  Re.plain (city example_scraper)
  ∧ (url_abc ∈ filter_restaurant_urls example_scraper example_links
     ↔ ∃ u, u ∈ example_links
            ∧ order_family (city example_scraper) u url_abc).
Proof.
  assert (Re.plain (city example_scraper)) as H by compute_done.
  split; [exact H|].
  exact (filter_admits_order_family example_scraper example_links url_abc H).
Defined.

(** C1, as stated, fails: a canonical URL on its own is in the family of the
    design document, whose suffix is optional, and the filter rejects it. *)
Lemma filter_optional_suffix_counterexample :
  spec_family (city example_scraper) url_abc url_abc
  ∧ url_abc ∉ filter_restaurant_urls example_scraper [url_abc].
Proof.
  split.
  - split; [apply url_abc_canonical|by left].
  - compute_done.
Qed.

(** C2, as amended.  For a canonical URL [c] the filter returns the empty set
    on the list holding [c] alone, and returns [c] unchanged, alone, on the
    list holding [c] followed by /order. *)
Theorem filter_on_canonical self c :
  Re.plain (city self) → canonical (city self) c →
  filter_restaurant_urls self [c] = ∅
  ∧ filter_restaurant_urls self [c +:+ "/order"] = {[ c ]}.
Proof.
  intros _ Hc. rewrite !filter_restaurant_urls_singleton. split.
  - destruct (Re.search _ c) as [m|] eqn:E; [|done].
    apply search_order_family in E.
    by apply canonical_not_order_family in E.
  - destruct (order_family_search _ _ _ (canonical_order_family _ _ Hc))
      as (m & -> & ->). done.
Qed.

Lemma filter_on_canonical_witness :
  Re.plain (city example_scraper)
  ∧ canonical (city example_scraper) url_abc
  ∧ filter_restaurant_urls example_scraper [url_abc] = ∅
  ∧ filter_restaurant_urls example_scraper [url_abc +:+ "/order"]
    = {[ url_abc ]}.
Proof.
  assert (Re.plain (city example_scraper)) as Hp by compute_done.
  assert (canonical (city example_scraper) url_abc) as Hc.
  { exists "https://www.zomato.com/bangalore/", "abc".
    split; [reflexivity|]. split; [reflexivity|]. split; [done|].
    compute_done. }
  split; [exact Hp|]. split; [exact Hc|].
  exact (filter_on_canonical example_scraper url_abc Hp Hc).
Defined.

(** C2, as stated, fails: the filter does not return a canonical URL given
    on its own. *)
Lemma filter_canonical_counterexample :
  canonical (city example_scraper) url_abc
  ∧ filter_restaurant_urls example_scraper [url_abc] ≠ {[ url_abc ]}.
Proof.
  split.
  - exists "https://www.zomato.com/bangalore/", "abc".
    split; [reflexivity|]. split; [reflexivity|]. split; [done|].
    compute_done.
  - compute_done.
Qed.

(** ** The object and the inner loop *)

Lemma set_next_id_self self : set_next_id self (next_id self) = self.
Proof. by destruct self. Qed.

Lemma new_items_of_spec self0 n l :
  ∃ items,
    new_items_of (set_next_id self0 n) l
    = (set_next_id self0 (n + Z.of_nat (length l)), items)
    ∧ url <$> items = l
    ∧ id <$> items = (fun k => n + Z.of_nat k) <$> seq 0 (length l).
Proof.
  unfold new_items_of.
  cut (∀ n acc, ∃ items,
    foldl (fun '(self, new_items) url =>
             let it := {| id := next_id self; url := url |} in
             (set_next_id self (next_id self + 1), new_items ++ [it]))
          (set_next_id self0 n, acc) l
    = (set_next_id self0 (n + Z.of_nat (length l)), acc ++ items)
    ∧ url <$> items = l
    ∧ id <$> items = (fun k => n + Z.of_nat k) <$> seq 0 (length l)).
  { intros G. destruct (G n []) as (items & ? & ? & ?). by exists items. }
  clear n. induction l as [|u l IH]; intros n acc.
  - exists []. simpl. rewrite Z.add_0_r, app_nil_r. done.
  - destruct (IH (n + 1) (acc ++ [{| id := n; url := u |}]))
      as (items & E & Hu & Hi).
    exists ({| id := n; url := u |} :: items). split; [|split].
    + simpl foldl.
      change (set_next_id (set_next_id self0 n) (n + 1))
        with (set_next_id self0 (n + 1)).
      etrans; [exact E|]. rewrite <-app_assoc. simpl.
      do 2 f_equal. lia.
    + by rewrite fmap_cons, Hu.
    + rewrite fmap_cons, Hi. simpl length. rewrite <-cons_seq, fmap_cons.
      rewrite <-fmap_S_seq, <-list_fmap_compose. simpl.
      f_equal; [lia|]. apply list_fmap_ext. intros _ k _. simpl. lia.
Qed.

Lemma filter_set_next_id self n urls :
  filter_restaurant_urls (set_next_id self n) urls
  = filter_restaurant_urls self urls.
Proof. done. Qed.

(** ** The store *)

Lemma append_written_stored new_items d d' l :
  append_to_json_file Written new_items d = Returns (d', l) →
  d' = Some (Parses (JArr (stored d ++ new_items))).
Proof.
  unfold append_to_json_file.
  destruct d as [[[]|]|]; simpl; intros [= <- _]; done.
Qed.

Lemma append_failed_write fate new_items d d' l :
  fate ≠ Written →
  append_to_json_file fate new_items d = Returns (d', l) →
  (d' = d ∨ d' = Some Unreadable) ∧ Error_writing ∈ l.
Proof.
  unfold append_to_json_file. intros Hf.
  destruct d as [[[]|]|], fate; simpl; try done; intros [= <- <-];
    (split; [by (left + right)|]); set_solver.
Qed.

(** ** One tick *)

Lemma tick_spec self0 t st st' r :
  numbered self0 st → tracked st → tick t st = (st', r) →
  let new_urls :=
    filter_restaurant_urls self0 (get_all_links (page t)) ∖ captured_urls st in
  ∃ created,
    stdout st' = stdout st ++ created
    ∧ url <$> created ≡ₚ elements new_urls
    ∧ numbered self0 st'
    ∧ (r = None → tracked st' ∧ captured_urls st' = captured_urls st ∪ new_urls)
    ∧ ((new_urls = ∅ ∧ st' = st ∧ r = None)
       ∨ (new_urls ≠ ∅
          ∧ match append_to_json_file (fate t) (to_json <$> created) (files st)
            with
            | Returns (d, l) =>
                files st' = d ∧ log st' = log st ++ l ∧ r = None
            | Raises e => files st' = files st ∧ r = Some e
            end)).
Proof.
  intros [Hself Hids Hnd] Htr. unfold tick.
  rewrite Hself, filter_set_next_id. rewrite <-Hself.
  set (new_urls := filter_restaurant_urls self0 _ ∖ captured_urls st).
  case_bool_decide as Hnew.
  - intros [= <- <-]. exists []. rewrite app_nil_r, Hnew, elements_empty.
    split; [done|]. split; [done|]. split; [done|].
    split; [|by left]. intros _. split; [done|].
    by rewrite union_empty_r_L.
  - rewrite Hself.
    destruct (new_items_of_spec self0
                (next_id self0 + Z.of_nat (length (stdout st)))
                (order t new_urls)) as (items & -> & Hu & Hi).
    assert (url <$> items ≡ₚ elements new_urls) as Hperm.
    { rewrite Hu. apply visit_perm. }
    assert (numbered self0
              {| self := set_next_id self0
                   (next_id self0 + Z.of_nat (length (stdout st))
                    + Z.of_nat (length (order t new_urls)));
                 captured_urls := captured_urls st; files := files st;
                 stdout := stdout st ++ items; log := log st |}) as Hnum.
    { assert (length items = length (order t new_urls)) as Hlen.
      { by rewrite <-Hu, length_fmap. }
      split; simpl.
      - rewrite length_app, Hlen. f_equal. lia.
      - rewrite fmap_app, length_app, seq_app, fmap_app, Hids, Hi, Hlen.
        f_equal.
        replace (seq (0 + length (stdout st)) (length (order t new_urls)))
          with (Nat.add (length (stdout st))
                  <$> seq 0 (length (order t new_urls)))
          by (by rewrite fmap_add_seq, Nat.add_0_r).
        rewrite <-list_fmap_compose.
        apply list_fmap_ext. intros _ k _. simpl. lia.
      - rewrite fmap_app. apply NoDup_app. split; [done|]. split.
        + intros c Hc Hc'. rewrite Hperm in Hc'.
          apply elem_of_elements, elem_of_difference in Hc' as [_ Hc'].
          apply Hc'. rewrite Htr. by apply elem_of_list_to_set.
        + rewrite Hperm. apply NoDup_elements. }
    destruct (append_to_json_file _ _ _) as [[d l]|e] eqn:E;
      intros [= <- <-]; exists items; simpl.
    + split; [done|]. split; [done|].
      split; [by destruct Hnum; split|].
      split.
      { intros _. split; [|done]. unfold tracked. simpl.
        rewrite fmap_app, list_to_set_app_L, <-Htr. f_equal.
        apply set_eq. intros c.
        by rewrite elem_of_list_to_set, Hperm, elem_of_elements. }
      right. split; [done|]. by rewrite E.
    + split; [done|]. split; [done|].
      split; [by destruct Hnum; split|].
      split; [done|].
      right. split; [done|]. by rewrite E.
Qed.

(** ** The loop *)

Lemma start_numbered self d : numbered self (start self d).
Proof.
  split; simpl.
  - by rewrite Z.add_0_r, set_next_id_self.
  - done.
  - constructor.
Qed.

Lemma start_tracked self d : tracked (start self d).
Proof. done. Qed.

Lemma loop_spec self0 ticks st st' e :
  numbered self0 st → tracked st → loop ticks st = (st', e) →
  ∃ created,
    stdout st' = stdout st ++ created
    ∧ numbered self0 st'
    ∧ (e = Interrupted →
       tracked st'
       ∧ captured_urls st ⊆ captured_urls st'
       ∧ (∀ t, t ∈ ticks →
            filter_restaurant_urls self0 (get_all_links (page t))
            ⊆ captured_urls st')
       ∧ (Forall (fun t => fate t = Written) ticks →
            stored (files st') = stored (files st) ++ (to_json <$> created))).
Proof.
  revert st. induction ticks as [|t ticks IH]; intros st Hnum Htr; simpl.
  - intros [= <- <-]. exists []. rewrite !app_nil_r.
    split; [done|]. split; [done|]. intros _.
    split; [done|]. split; [done|]. split; [|done].
    intros t Ht. by apply elem_of_nil in Ht.
  - destruct (tick t st) as [st1 r] eqn:Et.
    destruct (tick_spec self0 t st st1 r Hnum Htr Et)
      as (c1 & Hout1 & Hperm & Hnum1 & Hrun & Hcase).
    destruct r as [e1|].
    + intros [= <- <-]. exists c1. split; [done|]. split; [done|]. done.
    + destruct (Hrun eq_refl) as [Htr1 Hcap1]. intros El.
      destruct (IH st1 Hnum1 Htr1 El) as (c2 & Hout2 & Hnum2 & Hint).
      exists (c1 ++ c2). split; [by rewrite Hout2, Hout1, app_assoc|].
      split; [done|]. intros He.
      destruct (Hint He) as (Htr2 & Hsub & Hall & Hdisk).
      split; [done|]. split; [set_solver|]. split.
      * intros t' Ht'. apply elem_of_cons in Ht' as [->|Ht'];
          [set_solver|by apply Hall].
      * intros HW. apply Forall_cons in HW as [HWt HW].
        rewrite (Hdisk HW), fmap_app, app_assoc. f_equal.
        destruct Hcase as [(_ & -> & _)|[_ Happ]].
        { assert (c1 = []) as ->.
          { apply (f_equal length) in Hout1. rewrite length_app in Hout1.
            destruct c1; [done|simpl in Hout1; lia]. }
          by rewrite app_nil_r. }
        rewrite HWt in Happ.
        destruct (append_to_json_file Written _ _) as [[d' l]|] eqn:Ea;
          [|by destruct Happ].
        destruct Happ as (-> & _ & _).
        by rewrite (append_written_stored _ _ _ _ Ea).
Qed.

Lemma monitor_spec self d ticks st e :
  monitor_for_new_urls self d ticks = (st, e) →
  numbered self st
  ∧ (e = Interrupted →
     tracked st
     ∧ (∀ t, t ∈ ticks →
          filter_restaurant_urls self (get_all_links (page t))
          ⊆ captured_urls st)
     ∧ (Forall (fun t => fate t = Written) ticks →
          stored (files st) = stored d ++ (to_json <$> stdout st))).
Proof.
  unfold monitor_for_new_urls.
  destruct (loop ticks (start self d)) as [st1 e1] eqn:El.
  destruct (loop_spec self ticks _ _ _ (start_numbered self d)
              (start_tracked self d) El) as (created & Hout & Hnum & Hint).
  simpl in Hout. destruct e1 as [|e1]; intros [= <- <-].
  - split; [by destruct Hnum; split|]. intros _.
    destruct (Hint eq_refl) as (Htr & _ & Hall & Hdisk).
    split; [done|]. split; [done|]. simpl. intros HW.
    by rewrite Hout, (Hdisk HW).
  - split; [done|]. done.
Qed.

Lemma filter_url_none (c : string) (l : list item) :
  c ∉ url <$> l → filter (fun it => url it = c) l = [].
Proof.
  induction l as [|x l IH]; [done|]. rewrite fmap_cons, not_elem_of_cons.
  intros [Hx Hl]. rewrite filter_cons. case_decide; [congruence|]. by apply IH.
Qed.

Lemma filter_url_once (c : string) (l : list item) :
  NoDup (url <$> l) → c ∈ url <$> l →
  length (filter (fun it => url it = c) l) = 1%nat.
Proof.
  induction l as [|x l IH].
  - intros _ H. by apply elem_of_nil in H.
  - rewrite fmap_cons. intros [Hx Hnd]%NoDup_cons Hc.
    rewrite filter_cons. case_decide as E.
    + subst c. by rewrite filter_url_none.
    + apply elem_of_cons in Hc as [?|Hc]; [congruence|]. by apply IH.
Qed.

Lemma reachable_consistent self d st :
  reachable self d st → numbered self st ∧ tracked st.
Proof.
  intros [ticks El].
  destruct (loop_spec self ticks _ _ _ (start_numbered self d)
              (start_tracked self d) El) as (created & _ & Hnum & Hint).
  split; [done|]. by destruct (Hint eq_refl).
Qed.

(** ** The claims on the loop and the store *)

(** C3, as amended.  When the write of a tick fails, the seen-set still takes
    the URLs of the batch and the file does not: it is as before or
    unreadable.  No later tick of the run makes a record for one of these
    URLs, so a later successful write adds the newer items only and the
    failed batch is never written. *)
Theorem failed_write_is_not_retried self d st t st1 :
  reachable self d st → fate t ≠ Written → tick t st = (st1, None) →
  let batch :=
    filter_restaurant_urls self (get_all_links (page t)) ∖ captured_urls st in
  captured_urls st1 = captured_urls st ∪ batch
  ∧ (files st1 = files st ∨ files st1 = Some Unreadable)
  ∧ ∀ later st2 e, loop later st1 = (st2, e) →
      ∃ created,
        stdout st2 = stdout st1 ++ created
        ∧ (∀ it, it ∈ created → url it ∉ batch)
        ∧ (e = Interrupted → Forall (fun t' => fate t' = Written) later →
           stored (files st2) = stored (files st1) ++ (to_json <$> created)).
Proof.
  intros [Hnum Htr]%reachable_consistent Hfate Et batch.
  destruct (tick_spec self t st st1 None Hnum Htr Et)
    as (c1 & Hout1 & Hperm & Hnum1 & Hrun & Hcase).
  destruct (Hrun eq_refl) as [Htr1 Hcap1]. split; [done|]. split.
  { destruct Hcase as [(_ & -> & _)|[_ Happ]]; [by left|].
    destruct (append_to_json_file _ _ _) as [[d' l]|] eqn:Ea;
      [|by destruct Happ].
    destruct Happ as (-> & _ & _).
    by destruct (append_failed_write _ _ _ _ _ Hfate Ea) as [[->| ->] _];
      [left|right]. }
  intros later st2 e El.
  destruct (loop_spec self later _ _ _ Hnum1 Htr1 El)
    as (created & Hout2 & Hnum2 & Hint).
  exists created. split; [done|]. split.
  - intros it Hit Hb.
    destruct Hnum2 as [_ _ Hnd]. rewrite Hout2, fmap_app in Hnd.
    apply NoDup_app in Hnd as (_ & Hdis & _).
    apply (Hdis (url it)).
    + apply (elem_of_list_to_set (C := gset string)).
      rewrite <-Htr1, Hcap1. apply elem_of_union. by right.
    + by apply list_elem_of_fmap_2.
  - intros He HW. by destruct (Hint He) as (_ & _ & _ & Hdisk); apply Hdisk.
Qed.

Lemma failed_write_is_not_retried_witness :
  let st := start example_scraper None in
  let t := example_tick ["https://www.zomato.com/bangalore/abc/order"]
             OpenFails in
  let st1 := (tick t st).1 in
  reachable example_scraper None st
  ∧ fate t ≠ Written
  ∧ tick t st = (st1, None)
  ∧ captured_urls st1 = captured_urls st
      ∪ (filter_restaurant_urls example_scraper (get_all_links (page t))
         ∖ captured_urls st)
  ∧ (files st1 = files st ∨ files st1 = Some Unreadable).
Proof.
  intros st t st1.
  assert (reachable example_scraper None st) as H1 by (by exists []).
  assert (fate t ≠ Written) as H2 by done.
  assert (tick t st = (st1, None)) as H3 by (vm_compute; reflexivity).
  split; [exact H1|]. split; [exact H2|]. split; [exact H3|].
  destruct (failed_write_is_not_retried example_scraper None st t st1
              H1 H2 H3) as (Ha & Hb & _).
  split; [exact Ha|exact Hb].
Defined.

(** C3, as stated, fails: the write of the first tick fails, that of the
    second goes through, and the file holds the record of the second tick
    only. *)
Lemma failed_batch_never_written :
  let t1 := example_tick ["https://www.zomato.com/bangalore/abc/order"]
              OpenFails in
  let t2 := example_tick ["https://www.zomato.com/bangalore/abc/order";
                          "https://www.zomato.com/bangalore/xyz/order"]
              Written in
  let r := monitor_for_new_urls example_scraper None [t1; t2] in
  r.2 = Interrupted
  ∧ stdout r.1 = [Item 1 url_abc; Item 2 url_xyz]
  ∧ log r.1 = [Info_start; Error_writing; Info_appended 1 1; Info_stopped]
  ∧ url_abc ∈ captured_urls r.1
  ∧ files r.1 = Some (Parses (JArr [to_json (Item 2 url_xyz)]))
  ∧ to_json (Item 1 url_abc) ∉ stored (files r.1).
Proof.
  intros t1 t2 r.
  assert (files r.1 = Some (Parses (JArr [to_json (Item 2 url_xyz)]))) as Hf
    by (vm_compute; reflexivity).
  split; [vm_compute; reflexivity|]. split; [vm_compute; reflexivity|].
  split; [vm_compute; reflexivity|].
  split; [compute_done|]. split; [exact Hf|].
  rewrite Hf. simpl. intros H. apply list_elem_of_singleton in H. discriminate H.
Qed.

(** ** Runs stopped inside a tick *)

Lemma append_stored_cases fate new_items d d' l :
  append_to_json_file fate new_items d = Returns (d', l) →
  stored d' = stored d ++ new_items ∨ d' = d ∨ stored d' = [].
Proof.
  unfold append_to_json_file.
  destruct d as [[[]|]|], fate; simpl; try done; intros [= <- _]; auto.
Qed.

Lemma interrupted_append_stored_cases p fate new_items d d' l :
  interrupted_append p fate new_items d = Returns (d', l) →
  stored d' = stored d ++ new_items ∨ d' = d ∨ stored d' = [].
Proof.
  unfold interrupted_append.
  destruct p, d as [[[]|]|], fate; simpl; try done; intros [= <- _]; auto.
Qed.

Lemma holds_some_of_step d0 st st' created :
  holds_some_of d0 st →
  stdout st' = stdout st ++ created →
  stored (files st') = stored (files st) ++ (to_json <$> created)
  ∨ files st' = files st ∨ stored (files st') = [] →
  holds_some_of d0 st'.
Proof.
  intros (old & new & Hs & Hold & Hnew) Hout [H|[H|H]].
  - exists old, (new ++ created). rewrite H, Hs, Hout, fmap_app, app_assoc.
    split; [done|]. split; [done|]. by apply sublist_app.
  - exists old, new. rewrite H, Hout. split; [done|]. split; [done|].
    by apply sublist_inserts_r.
  - exists [], []. rewrite H. split; [done|].
    split; apply sublist_nil_l.
Qed.

Lemma tick_failed_state t st st' e :
  tick t st = (st', Some e) →
  captured_urls st' = captured_urls st ∧ files st' = files st.
Proof.
  unfold tick. case_bool_decide; [done|].
  destruct (new_items_of _ _) as [s' its].
  destruct (append_to_json_file _ _ _) as [[d l]|e']; [done|].
  by intros [= <- _].
Qed.

Lemma tick_holds_some_of self0 d0 t st st' r :
  numbered self0 st → tracked st → holds_some_of d0 st →
  tick t st = (st', r) → holds_some_of d0 st'.
Proof.
  intros Hnum Htr Hh Et.
  destruct (tick_spec self0 t st st' r Hnum Htr Et)
    as (created & Hout & _ & _ & _ & Hcase).
  destruct Hcase as [(_ & -> & _)|[_ Happ]]; [done|].
  apply (holds_some_of_step d0 st st' created Hh Hout).
  destruct (append_to_json_file _ _ _) as [[d' l]|e] eqn:Ea.
  - destruct Happ as (-> & _ & _).
    destruct (append_stored_cases _ _ _ _ _ Ea) as [?|[->|?]]; auto.
  - destruct Happ as [-> _]. auto.
Qed.

Lemma tracked_size self0 st :
  numbered self0 st → tracked st →
  size (captured_urls st) = length (stdout st).
Proof.
  intros [_ _ Hnd] ->. by rewrite size_list_to_set, length_fmap.
Qed.

Lemma loop_end self0 d0 ticks st st' e :
  numbered self0 st → tracked st → holds_some_of d0 st →
  loop ticks st = (st', e) →
  numbered self0 st' ∧ holds_some_of d0 st'
  ∧ (size (captured_urls st') ≤ length (stdout st'))%nat.
Proof.
  revert st. induction ticks as [|t ticks IH]; intros st Hnum Htr Hh; simpl.
  - intros [= <- <-]. split; [done|]. split; [done|].
    by rewrite (tracked_size self0).
  - destruct (tick t st) as [st1 r] eqn:Et.
    pose proof (tick_holds_some_of _ _ _ _ _ _ Hnum Htr Hh Et) as Hh1.
    destruct (tick_spec self0 t st st1 r Hnum Htr Et)
      as (created & Hout & _ & Hnum1 & Hrun & _).
    destruct r as [e1|].
    + intros [= <- <-]. split; [done|]. split; [done|].
      destruct (tick_failed_state _ _ _ _ Et) as [-> _].
      rewrite (tracked_size self0 st Hnum Htr), Hout, length_app. lia.
    + destruct (Hrun eq_refl) as [Htr1 _]. by apply IH.
Qed.

Lemma interrupted_tick_spec self0 t w st st' e :
  numbered self0 st → tracked st → interrupted_tick t w st = (st', e) →
  ∃ created,
    stdout st' = stdout st ++ created
    ∧ NoDup (url <$> stdout st')
    ∧ captured_urls st' = captured_urls st
    ∧ next_id self0 + Z.of_nat (length (stdout st')) ≤ next_id (self st')
      ≤ next_id self0 + Z.of_nat (length (stdout st')) + 1
    ∧ (stored (files st') = stored (files st) ++ (to_json <$> created)
       ∨ files st' = files st ∨ stored (files st') = []).
Proof.
  intros [Hself Hids Hnd] Htr. unfold interrupted_tick.
  rewrite Hself, filter_set_next_id.
  set (new_urls := filter_restaurant_urls self0 _ ∖ captured_urls st).
  case_bool_decide as Hnew.
  { intros [= <- <-]. exists []. rewrite app_nil_r, Hself. simpl.
    split; [done|]. split; [done|]. split; [done|]. split; [lia|auto]. }
  assert (∀ l items, l `sublist_of` order t new_urls → url <$> items = l →
            NoDup (url <$> (stdout st ++ items))) as Hdup.
  { intros l items Hl Hu. rewrite fmap_app. apply NoDup_app.
    split; [done|]. split.
    - intros c Hc Hc'. rewrite Hu in Hc'.
      apply (elem_of_sublist _ _ _ Hc') in Hl.
      rewrite (visit_perm (order t) new_urls) in Hl.
      apply elem_of_elements, elem_of_difference in Hl as [_ Hl].
      apply Hl. rewrite Htr. by apply elem_of_list_to_set.
    - rewrite Hu. apply (sublist_NoDup _ (order t new_urls)); [|done].
      rewrite (visit_perm (order t) new_urls). apply NoDup_elements. }
  destruct w as [j counted|p|].
  - destruct (new_items_of_spec self0
                (next_id self0 + Z.of_nat (length (stdout st)))
                (take j (order t new_urls))) as (items & -> & Hu & _).
    intros [= <- <-]. exists items. simpl.
    assert (length items = length (take j (order t new_urls))) as Hlen
      by (by rewrite <-Hu, length_fmap).
    split; [done|].
    split; [by apply (Hdup (take j (order t new_urls))); [apply sublist_take|]|].
    split; [done|]. split; [|auto].
    rewrite length_app, Hlen.
    destruct (counted && _); simpl; lia.
  - destruct (new_items_of_spec self0
                (next_id self0 + Z.of_nat (length (stdout st)))
                (order t new_urls)) as (items & -> & Hu & _).
    assert (length items = length (order t new_urls)) as Hlen
      by (by rewrite <-Hu, length_fmap).
    destruct (interrupted_append _ _ _ _) as [[d l]|e'] eqn:Ea;
      intros [= <- <-]; exists items; simpl;
      (split; [done|]); (split; [by apply (Hdup (order t new_urls))|]);
      (split; [done|]); (split; [rewrite length_app, Hlen; lia|]).
    + destruct (interrupted_append_stored_cases _ _ _ _ _ _ Ea)
        as [?|[->|?]]; auto.
    + auto.
  - destruct (new_items_of_spec self0
                (next_id self0 + Z.of_nat (length (stdout st)))
                (order t new_urls)) as (items & -> & Hu & _).
    assert (length items = length (order t new_urls)) as Hlen
      by (by rewrite <-Hu, length_fmap).
    destruct (append_to_json_file _ _ _) as [[d l]|e'] eqn:Ea;
      intros [= <- <-]; exists items; simpl;
      (split; [done|]); (split; [by apply (Hdup (order t new_urls))|]);
      (split; [done|]); (split; [rewrite length_app, Hlen; lia|]).
    + destruct (append_stored_cases _ _ _ _ _ Ea) as [?|[->|?]]; auto.
    + auto.
Qed.

Lemma start_holds_some_of self d : holds_some_of d (start self d).
Proof.
  exists (stored d), []. simpl. rewrite app_nil_r.
  split; [done|]. split; [done|]. apply sublist_nil_l.
Qed.

Lemma monitor_interrupted_None self d ticks :
  monitor_for_new_urls_interrupted self d ticks None
  = monitor_for_new_urls self d ticks.
Proof.
  unfold monitor_for_new_urls_interrupted, monitor_for_new_urls.
  by destruct (loop ticks (start self d)) as [st []].
Qed.

Lemma monitor_interrupted_end self0 d ticks last :
  let r := monitor_for_new_urls_interrupted self0 d ticks last in
  ∃ st1 e1 created,
    loop ticks (start self0 d) = (st1, e1)
    ∧ stdout r.1 = stdout st1 ++ created
    ∧ NoDup (url <$> stdout r.1)
    ∧ holds_some_of d r.1
    ∧ (size (captured_urls r.1) ≤ length (stdout r.1))%nat
    ∧ next_id self0 + Z.of_nat (length (stdout r.1)) ≤ next_id (self r.1)
      ≤ next_id self0 + Z.of_nat (length (stdout r.1)) + 1.
Proof.
  unfold monitor_for_new_urls_interrupted.
  destruct (loop ticks (start self0 d)) as [st1 e1] eqn:El.
  destruct (loop_end self0 d ticks _ _ _ (start_numbered self0 d)
              (start_tracked self0 d) (start_holds_some_of self0 d) El)
    as (Hnum & Hh & Hsize).
  destruct (loop_spec self0 ticks _ _ _ (start_numbered self0 d)
              (start_tracked self0 d) El) as (cr & _ & _ & Hint).
  assert (next_id (self st1) = next_id self0 + Z.of_nat (length (stdout st1)))
    as Hid by (by destruct Hnum as [-> _ _]).
  exists st1, e1.
  destruct e1 as [|e1].
  - destruct (Hint eq_refl) as (Htr & _).
    destruct last as [[t w]|].
    + destruct (interrupted_tick t w st1) as [st2 e2] eqn:Et.
      destruct (interrupted_tick_spec self0 t w st1 st2 e2 Hnum Htr Et)
        as (created & Hout & Hnd & Hcap & Hb & Hf).
      assert (holds_some_of d st2) as Hh2
        by (by apply (holds_some_of_step d st1 st2 created)).
      assert (size (captured_urls st2) ≤ length (stdout st2))%nat as Hs2
        by (rewrite Hcap, Hout, length_app; lia).
      exists created. by destruct e2.
    + exists []. simpl. rewrite app_nil_r.
      split; [done|]. split; [done|]. split; [by destruct Hnum|].
      split; [done|]. split; [done|]. lia.
  - exists []. simpl. rewrite app_nil_r.
    split; [done|]. split; [done|]. split; [by destruct Hnum|].
    split; [done|]. split; [done|]. lia.
Qed.

(** C4, as amended.  In a run, wherever it is stopped and whether or not it
    fails, no two records carry the same URL; when the ticks ran to their
    end there is exactly one record for each URL filtered by one of them,
    however many of them filtered it.  The record is handed to the store
    once: the file holds, after what is left of its earlier content, some of
    the records of the run, each at most once; it holds all of them, after
    all of its earlier content, when the run is stopped between two ticks
    and every write went through. *)
Theorem one_record_per_url self0 d ticks last :
  let r := monitor_for_new_urls_interrupted self0 d ticks last in
  NoDup (url <$> stdout r.1)
  ∧ ((loop ticks (start self0 d)).2 = Interrupted →
     ∀ t c, t ∈ ticks →
       c ∈ filter_restaurant_urls self0 (get_all_links (page t)) →
       length (filter (fun it => url it = c) (stdout r.1)) = 1%nat)
  ∧ holds_some_of d r.1
  ∧ (r.2 = Interrupted → last = None →
     Forall (fun t => fate t = Written) ticks →
     stored (files r.1) = stored d ++ (to_json <$> stdout r.1)).
Proof.
  intros r.
  destruct (monitor_interrupted_end self0 d ticks last)
    as (st1 & e1 & created & El & Hout & Hnd & Hh & _ & _).
  fold r in Hout, Hnd, Hh.
  split; [done|]. split; [|split; [done|]].
  - rewrite El. simpl. intros -> t c Ht Hc.
    destruct (loop_spec self0 ticks _ _ _ (start_numbered self0 d)
                (start_tracked self0 d) El) as (cr & _ & _ & Hint).
    destruct (Hint eq_refl) as (Htr & _ & Hall & _).
    apply filter_url_once; [done|].
    rewrite Hout, fmap_app. apply elem_of_app. left.
    apply (elem_of_list_to_set (C := gset string)). rewrite <-Htr.
    by apply (Hall t).
  - intros He -> HW. subst r. rewrite monitor_interrupted_None in *.
    destruct (monitor_for_new_urls self0 d ticks) as [st e] eqn:Er.
    simpl in *. subst e.
    destruct (monitor_spec _ _ _ _ _ Er) as [_ Hint].
    destruct (Hint eq_refl) as (_ & _ & Hdisk). by apply Hdisk.
Qed.

Lemma one_record_per_url_witness :
  let t := example_tick example_links Written in
  let stopped :=
    monitor_for_new_urls_interrupted example_scraper None [t; t]
      (Some (example_tick ["https://www.zomato.com/bangalore/abc/order";
                           "https://www.zomato.com/bangalore/q/order"]
               Written, In_append During_dump)) in
  let r := monitor_for_new_urls_interrupted example_scraper None [t; t] None in
  (loop [t; t] (start example_scraper None)).2 = Interrupted
  ∧ url_abc ∈ filter_restaurant_urls example_scraper (get_all_links (page t))
  ∧ r.2 = Interrupted
  ∧ Forall (fun t => fate t = Written) [t; t]
  ∧ length (filter (fun it => url it = url_abc) (stdout stopped.1)) = 1%nat
  ∧ length (filter (fun it => url it = url_abc) (stdout r.1)) = 1%nat
  ∧ stored (files r.1) = stored None ++ (to_json <$> stdout r.1).
Proof.
  intros t stopped r.
  assert ((loop [t; t] (start example_scraper None)).2 = Interrupted) as H1
    by (vm_compute; reflexivity).
  assert (url_abc
          ∈ filter_restaurant_urls example_scraper (get_all_links (page t)))
    as H2 by compute_done.
  assert (r.2 = Interrupted) as H3 by (vm_compute; reflexivity).
  assert (Forall (fun t => fate t = Written) [t; t]) as H4
    by (repeat constructor).
  split; [exact H1|]. split; [exact H2|]. split; [exact H3|].
  split; [exact H4|]. split; [|split].
  - destruct (one_record_per_url example_scraper None [t; t]
                (Some (example_tick
                         ["https://www.zomato.com/bangalore/abc/order";
                          "https://www.zomato.com/bangalore/q/order"]
                         Written, In_append During_dump)))
      as (_ & Ha & _).
    apply (Ha H1 t); [left|exact H2].
  - destruct (one_record_per_url example_scraper None [t; t] None)
      as (_ & Ha & _).
    apply (Ha H1 t); [left|exact H2].
  - destruct (one_record_per_url example_scraper None [t; t] None)
      as (_ & _ & _ & Hb).
    exact (Hb H3 eq_refl H4).
Defined.

(** C4, as stated, fails: the URL is filtered in both ticks and one record is
    made for it, but the write of its tick fails and the file never holds
    it. *)
Lemma record_created_not_persisted :
  let t1 := example_tick ["https://www.zomato.com/bangalore/abc/order"]
              OpenFails in
  let t2 := example_tick ["https://www.zomato.com/bangalore/abc/order";
                          "https://www.zomato.com/bangalore/xyz/order"]
              Written in
  let r := monitor_for_new_urls example_scraper None [t1; t2] in
  r.2 = Interrupted
  ∧ url_abc ∈ filter_restaurant_urls example_scraper (get_all_links (page t1))
  ∧ url_abc ∈ filter_restaurant_urls example_scraper (get_all_links (page t2))
  ∧ filter (fun it => url it = url_abc) (stdout r.1) = [Item 1 url_abc]
  ∧ stored (files r.1) = [to_json (Item 2 url_xyz)]
  ∧ ∀ n, to_json (Item n url_abc) ∉ stored (files r.1).
Proof.
  intros t1 t2 r.
  assert (stored (files r.1) = [to_json (Item 2 url_xyz)]) as Hf
    by (vm_compute; reflexivity).
  split; [vm_compute; reflexivity|]. split; [compute_done|].
  split; [compute_done|]. split; [vm_compute; reflexivity|].
  split; [exact Hf|].
  intros n H. rewrite Hf in H. apply list_elem_of_singleton in H.
  discriminate H.
Qed.

(** C5.  The ids of the records of a run, in the order of assignment, are
    1, 2, 3 and so on. *)
Theorem ids_count_from_one base city out d ticks :
  let st := (monitor_for_new_urls (__init__ base city out) d ticks).1 in
  id <$> stdout st = Z.of_nat <$> seq 1 (length (stdout st)).
Proof.
  intros st. subst st.
  destruct (monitor_for_new_urls _ d ticks) as [st e] eqn:Er. simpl.
  destruct (monitor_spec _ _ _ _ _ Er) as [[_ Hids _] _].
  rewrite Hids, <-fmap_S_seq, <-list_fmap_compose.
  apply list_fmap_ext. intros _ k _. simpl. lia.
Qed.

(** C6.  From a store that is absent or holds an array, appends whose
    writes go through all return and leave the records that were there,
    in their order, followed by the batches in turn; the count is the count
    before plus the sizes of the batches. *)
Theorem append_only_growth batches d :
  intact d →
  ∃ d', append_all batches d = Returns d'
        ∧ stored d' = stored d ++ concat batches
        ∧ length (stored d')
          = (length (stored d) + sum_list (length <$> batches))%nat.
Proof.
  intros Hd.
  cut (∃ d', append_all batches d = Returns d'
             ∧ stored d' = stored d ++ concat batches).
  { intros (d' & ? & Hs). exists d'. split; [done|]. split; [done|].
    rewrite Hs, length_app. f_equal. clear.
    induction batches as [|b bs IH]; simpl; [done|].
    by rewrite length_app, IH. }
  revert d Hd. induction batches as [|b bs IH]; intros d Hd; simpl.
  - exists d. by rewrite app_nil_r.
  - destruct (append_to_json_file Written b d) as [[d1 l]|e] eqn:Ea.
    + apply append_written_stored in Ea as ->.
      destruct (IH (Some (Parses (JArr (stored d ++ b))))) as (d' & E & Hs).
      { right. eauto. }
      exists d'. split; [done|]. by rewrite Hs, app_assoc.
    + by destruct Hd as [->|[l ->]].
Qed.

Lemma append_only_growth_witness :
  intact None
  ∧ ∃ d', append_all [[to_json (Item 1 url_abc)]; [to_json (Item 2 url_xyz)]]
            None = Returns d'
          ∧ stored d' = stored None
              ++ concat [[to_json (Item 1 url_abc)];
                         [to_json (Item 2 url_xyz)]]
          ∧ length (stored d')
            = (length (stored None)
               + sum_list (length <$> [[to_json (Item 1 url_abc)];
                                       [to_json (Item 2 url_xyz)]]))%nat.
Proof.
  assert (intact None) as H by (by left).
  split; [exact H|]. exact (append_only_growth _ None H).
Defined.

(** C7.  On a file that cannot be parsed [append_to_json_file] returns
    whatever the fate of the write; it logs the read error and, when the
    write goes through, the file holds the new batch and nothing else. *)
Theorem corrupt_file_is_replaced new_items :
  append_to_json_file Written new_items (Some Unreadable)
  = Returns (Some (Parses (JArr new_items)),
             [Error_reading;
              Info_appended (length new_items) (length new_items)])
  ∧ ∀ fate, ∃ d l,
      append_to_json_file fate new_items (Some Unreadable) = Returns (d, l)
      ∧ head l = Some Error_reading.
Proof.
  split; [done|]. intros []; eauto.
Qed.

(** C8.  Whatever the file holds, a run on a new object starts with
    [next_id] 1 and an empty seen-set: the first tick records every URL it
    filters, and the first record of the run has id 1. *)
Theorem fresh_run_starts_at_one base city out d :
  let s := __init__ base city out in
  next_id s = 1
  ∧ captured_urls (start s d) = ∅
  ∧ (∀ t, url <$> stdout (tick t (start s d)).1
          ≡ₚ elements (filter_restaurant_urls s (get_all_links (page t))))
  ∧ ∀ ticks it rest,
      stdout (monitor_for_new_urls s d ticks).1 = it :: rest → id it = 1.
Proof.
  intros s. split; [done|]. split; [done|]. split.
  - intros t. destruct (tick t (start s d)) as [st r] eqn:Et.
    destruct (tick_spec s t _ _ _ (start_numbered s d) (start_tracked s d) Et)
      as (created & Hout & Hperm & _).
    simpl in *. rewrite Hout, Hperm. by rewrite difference_empty_L.
  - intros ticks it rest Hout.
    destruct (monitor_for_new_urls s d ticks) as [st e] eqn:Er.
    destruct (monitor_spec _ _ _ _ _ Er) as [[_ Hids _] _].
    simpl in Hout. rewrite Hout in Hids. simpl in Hids.
    by injection Hids as -> _.
Qed.

Lemma fresh_run_starts_at_one_witness :
  let previous := Some (Parses (JArr [to_json (Item 7 url_abc)])) in
  let r := monitor_for_new_urls example_scraper previous
             [example_tick ["https://www.zomato.com/bangalore/abc/order"]
                Written] in
  stdout r.1 = [Item 1 url_abc] ∧ id (Item 1 url_abc) = 1.
Proof.
  intros previous r.
  assert (stdout r.1 = [Item 1 url_abc]) as H by (vm_compute; reflexivity).
  split; [exact H|].
  destruct (fresh_run_starts_at_one default_base_url default_city
              default_output_file previous) as (_ & _ & _ & Hid).
  exact (Hid _ _ _ H).
Defined.

(** C9.  The script stops on its first URL: the page is loaded, the scraper
    has no attribute [extract_phone_number], and no phone number is
    printed. *)
Theorem ph_scraper_raises :
  ph_scraper
  = ([Loaded "https://www.zomato.com/bangalore/1947-jp-nagar-bangalore"],
     Some (AttributeError "ZomatoScraper" "extract_phone_number")).
Proof. reflexivity. Qed.

(** C10.  The filter does not read [base_url]: scrapers built with the same
    city return the same set on every list, and the URLs admitted are those
    of the family under https://www.zomato.com/ and the city. *)
Theorem base_url_has_no_effect base1 base2 city out1 out2 urls :
  filter_restaurant_urls (__init__ base1 city out1) urls
  = filter_restaurant_urls (__init__ base2 city out2) urls
  ∧ (Re.plain city → ∀ c,
       c ∈ filter_restaurant_urls (__init__ base1 city out1) urls
       ↔ ∃ u, u ∈ urls ∧ order_family (str_lower city) u c).
Proof.
  split; [done|]. intros _ c.
  rewrite elem_of_filter_restaurant_urls. simpl. split.
  - intros (u & m & Hu & Hs & <-). exists u. split; [done|].
    by apply search_order_family.
  - intros (u & Hu & Hf). apply order_family_search in Hf as (m & ? & ?).
    by exists u, m.
Qed.

Lemma base_url_has_no_effect_witness :
  Re.plain default_city
  ∧ (url_abc ∈ filter_restaurant_urls
                 (__init__ "http://localhost:8000/" default_city
                    default_output_file) example_links
     ↔ ∃ u, u ∈ example_links
            ∧ order_family (str_lower default_city) u url_abc).
Proof.
  assert (Re.plain default_city) as H by compute_done.
  split; [exact H|].
  destruct (base_url_has_no_effect "http://localhost:8000/"
              default_base_url default_city default_output_file
              default_output_file example_links) as [_ Hf].
  exact (Hf H url_abc).
Defined.

(** * Further properties *)

(** ** More on link extraction *)

Lemma get_all_links_acc acc els :
  foldl (fun hrefs el =>
           match el with
           | Href (Some href) =>
               if bool_decide (href = "") then hrefs else hrefs ++ [href]
           | Href None => hrefs
           | Stale => hrefs
           end) acc els
  = acc ++ get_all_links els.
Proof.
  unfold get_all_links. revert acc.
  induction els as [|el els IH]; intros acc; simpl.
  - by rewrite app_nil_r.
  - rewrite IH. symmetry. rewrite IH. symmetry.
    destruct el as [[h|]|]; try done.
    case_bool_decide; [done|]. by rewrite app_assoc.
Qed.

Lemma get_all_links_cons el els :
  get_all_links (el :: els)
  = match el with
    | Href (Some href) => if bool_decide (href = "") then [] else [href]
    | _ => []
    end ++ get_all_links els.
Proof.
  unfold get_all_links at 1. simpl. rewrite get_all_links_acc.
  by destruct el as [[h|]|].
Qed.

(** X1.  The links of a list of anchors are those of its first part followed
    by those of the rest: the order of the page is kept and nothing is
    merged. *)
Theorem get_all_links_app els1 els2 :
  get_all_links (els1 ++ els2) = get_all_links els1 ++ get_all_links els2.
Proof.
  induction els1 as [|el els1 IH]; [done|].
  rewrite <-app_comm_cons, !get_all_links_cons, IH. by rewrite app_assoc.
Qed.

(** X2.  [get_all_links] returns a string exactly when it is not empty and is
    the href of one of the anchors; stale anchors and anchors without href
    give nothing. *)
Theorem elem_of_get_all_links els href :
  href ∈ get_all_links els ↔ href ≠ "" ∧ Href (Some href) ∈ els.
Proof.
  induction els as [|el els IH].
  - split; [by intros ?%elem_of_nil|by intros [_ ?%elem_of_nil]].
  - rewrite get_all_links_cons, elem_of_app, IH, elem_of_cons.
    destruct el as [[h|]|].
    + case_bool_decide as E.
      * split.
        -- intros [?%elem_of_nil|[? ?]]; [done|]. split; [done|by right].
        -- intros [Hne [[= ->]|?]]; [done|by right].
      * rewrite list_elem_of_singleton. split.
        -- intros [->|[? ?]]; [split; [done|by left]|split; [done|by right]].
        -- intros [Hne [[= ->]|?]]; [by left|by right].
    + split.
      * intros [?%elem_of_nil|[? ?]]; [done|]. split; [done|by right].
      * intros [Hne [?|?]]; [done|by right].
    + split.
      * intros [?%elem_of_nil|[? ?]]; [done|]. split; [done|by right].
      * intros [Hne [?|?]]; [done|by right].
Qed.

(** ** More on the filter *)

Lemma filter_restaurant_urls_union self urls1 urls2 :
  filter_restaurant_urls self (urls1 ++ urls2)
  = filter_restaurant_urls self urls1 ∪ filter_restaurant_urls self urls2.
Proof.
  apply set_eq. intros c.
  rewrite elem_of_union, !elem_of_filter_restaurant_urls. split.
  - intros (u & m & [Hu|Hu]%elem_of_app & Hs & Hg);
      [left|right]; by exists u, m.
  - intros [(u & m & Hu & Hs & Hg)|(u & m & Hu & Hs & Hg)];
      exists u, m; (split; [|done]); apply elem_of_app; [by left|by right].
Qed.

(** X4.  The filtered set depends on which links occur only, not on their
    order or on how often they occur. *)
Theorem filter_restaurant_urls_same_links self urls1 urls2 :
  (∀ u, u ∈ urls1 ↔ u ∈ urls2) →
  filter_restaurant_urls self urls1 = filter_restaurant_urls self urls2.
Proof.
  intros H. apply set_eq. intros c.
  rewrite !elem_of_filter_restaurant_urls.
  split; intros (u & m & Hu & Hs & Hg); exists u, m;
    (split; [by apply H|done]).
Qed.

Lemma filter_restaurant_urls_same_links_witness :
  (∀ u, u ∈ example_links ↔ u ∈ reverse example_links ++ example_links)
  ∧ filter_restaurant_urls example_scraper example_links
    = filter_restaurant_urls example_scraper
        (reverse example_links ++ example_links).
Proof.
  assert (∀ u, u ∈ example_links ↔ u ∈ reverse example_links ++ example_links)
    as H.
  { intros u. rewrite elem_of_app, elem_of_reverse. tauto. }
  split; [exact H|].
  exact (filter_restaurant_urls_same_links example_scraper _ _ H).
Defined.

(** X5.  The filter only cuts: every URL it returns is canonical and is the
    beginning of one of the inputs, up to a slash of that input. *)
Theorem filter_restaurant_urls_cuts self urls c :
  Re.plain (city self) →
  c ∈ filter_restaurant_urls self urls →
  canonical (city self) c
  ∧ ∃ u rest, u ∈ urls ∧ u = c +:+ String "/" rest.
Proof.
  intros _ (u & m & Hu & Hs & <-)%elem_of_filter_restaurant_urls.
  destruct (search_order_family _ _ _ Hs)
    as [Hc (ord & rest & E & Hord & _)].
  split; [done|].
  apply same_fold_chars, fold_order_head in Hord as [r Hr].
  exists u, (String.string_of_list_ascii r +:+ rest). split; [done|].
  rewrite E at 1. f_equal.
  rewrite <-(of_chars ord), Hr. done.
Qed.

Lemma filter_restaurant_urls_cuts_witness :
  Re.plain (city example_scraper)
  ∧ url_abc ∈ filter_restaurant_urls example_scraper example_links
  ∧ canonical (city example_scraper) url_abc
  ∧ ∃ u rest, u ∈ example_links ∧ u = url_abc +:+ String "/" rest.
Proof.
  assert (Re.plain (city example_scraper)) as H1 by compute_done.
  assert (url_abc ∈ filter_restaurant_urls example_scraper example_links)
    as H2 by compute_done.
  split; [exact H1|]. split; [exact H2|].
  exact (filter_restaurant_urls_cuts example_scraper example_links url_abc
           H1 H2).
Defined.

(** X3.  Filtering a concatenation gives the union of the two filtered
    sets. *)
Theorem filter_restaurant_urls_app self urls1 urls2 :
  filter_restaurant_urls self (urls1 ++ urls2)
  = filter_restaurant_urls self urls1 ∪ filter_restaurant_urls self urls2.
Proof. apply filter_restaurant_urls_union. Qed.

(** X6.  The filter returns at most as many URLs as it was given. *)
Theorem filter_restaurant_urls_size self urls :
  (size (filter_restaurant_urls self urls) ≤ length urls)%nat.
Proof.
  induction urls as [|u urls IH]; [done|].
  change (u :: urls) with ([u] ++ urls).
  rewrite filter_restaurant_urls_union, filter_restaurant_urls_singleton.
  rewrite size_union_alt.
  assert (size (filter_restaurant_urls self urls
                ∖ match Re.search (restaurant_pattern (city self)) u with
                  | Some m => {[Re.group m 1]}
                  | None => ∅
                  end) ≤ size (filter_restaurant_urls self urls))%nat
    by (apply subseteq_size, subseteq_difference_l; done).
  destruct (Re.search _ u).
  - rewrite size_singleton. simpl. lia.
  - rewrite size_empty. simpl. lia.
Qed.

(** X7.  For a city without pattern metacharacters, filtering what the filter
    returned gives the empty set: no returned URL is admitted again. *)
Theorem filter_restaurant_urls_refilter self0 urls :
  Re.plain (city self0) →
  filter_restaurant_urls self0
    (elements (filter_restaurant_urls self0 urls)) = ∅.
Proof.
  intros _. apply set_eq. intros c. split; [|by intros ?%elem_of_empty].
  intros (u & m & Hu & Hs & _)%elem_of_filter_restaurant_urls.
  apply elem_of_elements, elem_of_filter_restaurant_urls in Hu
    as (u0 & m0 & _ & Hs0 & <-).
  apply search_order_family in Hs0 as [Hc _].
  apply search_order_family in Hs.
  by destruct (canonical_not_order_family _ _ _ Hc Hs).
Qed.

Lemma filter_restaurant_urls_refilter_witness :
  Re.plain (city example_scraper)
  ∧ filter_restaurant_urls example_scraper
      (elements (filter_restaurant_urls example_scraper example_links)) = ∅.
Proof.
  assert (Re.plain (city example_scraper)) as H by compute_done.
  split; [exact H|].
  exact (filter_restaurant_urls_refilter example_scraper example_links H).
Defined.

(** X8.  After a canonical URL and /order the rest is admitted exactly when
    it has no newline, or only one that ends it. *)
Theorem filter_restaurant_urls_line self c rest :
  Re.plain (city self) → canonical (city self) c →
  c ∈ filter_restaurant_urls self [c +:+ "/order" +:+ rest]
  ↔ to_line_end rest.
Proof.
  intros _ Hc. rewrite elem_of_filter_restaurant_urls. split.
  - intros (u & m & ->%list_elem_of_singleton & Hs & Hg).
    apply search_order_family in Hs as [_ (ord & rest' & E & Hord & Hl)].
    rewrite Hg in E. apply (inj (String.app c)) in E.
    apply same_fold_chars, fmap_lower_length in Hord.
    apply (f_equal chars) in E. rewrite !chars_app in E.
    apply app_same_length in E as [_ E]; [|done].
    apply (f_equal String.string_of_list_ascii) in E.
    rewrite !of_chars in E. by rewrite E.
  - intros Hl.
    destruct (order_family_search (city self) (c +:+ "/order" +:+ rest) c)
      as (m & Hs & Hg).
    { split; [done|]. by exists "/order", rest. }
    exists (c +:+ "/order" +:+ rest), m. split; [|done].
    by apply list_elem_of_singleton.
Qed.

Lemma filter_restaurant_urls_line_witness :
  Re.plain (city example_scraper)
  ∧ canonical (city example_scraper) url_abc
  ∧ (url_abc
     ∈ filter_restaurant_urls example_scraper [url_abc +:+ "/order" +:+ "123"]
     ↔ to_line_end "123").
Proof.
  assert (Re.plain (city example_scraper)) as H1 by compute_done.
  assert (canonical (city example_scraper) url_abc) as H2.
  { exists "https://www.zomato.com/bangalore/", "abc".
    split; [reflexivity|]. split; [reflexivity|]. split; [done|].
    compute_done. }
  split; [exact H1|]. split; [exact H2|].
  exact (filter_restaurant_urls_line example_scraper url_abc "123" H1 H2).
Defined.

(** ** More on the store *)

(** X9.  [append_to_json_file] raises exactly when the file parses to
    something other than an array, whatever the batch and the fate of the
    write. *)
Theorem append_to_json_file_raises fate new_items d :
  (∃ e, append_to_json_file fate new_items d = Raises e)
  ↔ ∃ v, d = Some (Parses v) ∧ ∀ l, v ≠ JArr l.
Proof.
  unfold append_to_json_file. split.
  - intros [e He]. destruct d as [[v|]|]; simpl in He.
    + exists v. split; [done|]. intros l ->. simpl in He. by destruct fate.
    + by destruct fate.
    + by destruct fate.
  - intros (v & -> & Hv). destruct v; simpl; eauto. by destruct (Hv items).
Qed.

Lemma append_written_returns new_items d :
  (∀ v, d = Some (Parses v) → ∃ l, v = JArr l) →
  ∃ l, append_to_json_file Written new_items d
       = Returns (Some (Parses (JArr (stored d ++ new_items))), l).
Proof.
  intros Hd. unfold append_to_json_file.
  destruct d as [[v|]|]; simpl; eauto.
  destruct (Hd v eq_refl) as [l ->]. simpl. eauto.
Qed.

Lemma append_all_returns a batches d :
  (∀ v, d = Some (Parses v) → ∃ l, v = JArr l) →
  append_all (a :: batches) d
  = Returns (Some (Parses (JArr (stored d ++ a ++ concat batches)))).
Proof.
  revert a d. induction batches as [|b batches IH]; intros a d Hd.
  - destruct (append_written_returns a d Hd) as [l E].
    simpl. rewrite E. by rewrite app_nil_r.
  - destruct (append_written_returns a d Hd) as [l E].
    change (append_all (a :: b :: batches) d) with
      (match append_to_json_file Written a d with
       | Returns (d', _) => append_all (b :: batches) d'
       | Raises e => Raises e
       end).
    rewrite E, IH; [|intros v [= <-]; eauto].
    simpl. by rewrite <-!app_assoc.
Qed.

Lemma append_all_raises a batches v :
  (∀ l, v ≠ JArr l) →
  append_all (a :: batches) (Some (Parses v))
  = match extend v [] with
    | Raises e => Raises e
    | Returns _ => Returns None
    end.
Proof.
  intros Hv. simpl. unfold append_to_json_file.
  destruct v; simpl; try done. by destruct (Hv items).
Qed.

(** X10.  Successive appends whose writes go through end as one append of
    the concatenated batches does: with the same file, or the same
    exception. *)
Theorem append_all_concat batches d :
  batches ≠ [] → append_all batches d = append_all [concat batches] d.
Proof.
  intros Hne. destruct batches as [|a batches]; [done|]. clear Hne.
  destruct d as [[v|]|].
  - destruct v;
      try (rewrite !append_all_raises by (intros l; discriminate); done).
    rewrite !append_all_returns by (intros v [= <-]; eauto).
    simpl. by rewrite !app_nil_r.
  - rewrite !append_all_returns by done. simpl. by rewrite !app_nil_r.
  - rewrite !append_all_returns by done. simpl. by rewrite !app_nil_r.
Qed.

Lemma append_all_concat_witness :
  [[to_json (Item 1 url_abc)]; [to_json (Item 2 url_xyz)]] ≠ []
  ∧ append_all [[to_json (Item 1 url_abc)]; [to_json (Item 2 url_xyz)]]
      (Some Unreadable)
    = append_all [concat [[to_json (Item 1 url_abc)];
                          [to_json (Item 2 url_xyz)]]] (Some Unreadable).
Proof.
  assert ([[to_json (Item 1 url_abc)]; [to_json (Item 2 url_xyz)]] ≠ [])
    as H by done.
  split; [exact H|]. exact (append_all_concat _ (Some Unreadable) H).
Defined.

(** X11.  A write that fails is logged as an error and the call returns.
    When [open] fails the file is as before; when [json.dump] fails the file
    is unreadable, and the next append that goes through leaves its own
    batch only: the records that were there are gone. *)
Theorem append_to_json_file_failed_write fate a d d1 l :
  fate ≠ Written →
  append_to_json_file fate a d = Returns (d1, l) →
  last l = Some Error_writing
  ∧ (fate = OpenFails → d1 = d)
  ∧ (fate = DumpFails →
     d1 = Some Unreadable
     ∧ ∀ b, append_to_json_file Written b d1
            = Returns (Some (Parses (JArr b)),
                       [Error_reading;
                        Info_appended (length b) (length b)])).
Proof.
  intros Hf. unfold append_to_json_file.
  destruct d as [[[]|]|], fate; simpl; try done; intros [= <- <-];
    (split; [done|]); (split; [done|]); try done; intros _; by split.
Qed.

Lemma append_to_json_file_failed_write_witness :
  let d := Some (Parses (JArr [to_json (Item 1 url_abc)])) in
  DumpFails ≠ Written
  ∧ append_to_json_file DumpFails [to_json (Item 2 url_xyz)] d
    = Returns (Some Unreadable, [Error_writing])
  ∧ ∀ b, append_to_json_file Written b (Some Unreadable)
         = Returns (Some (Parses (JArr b)),
                    [Error_reading; Info_appended (length b) (length b)]).
Proof.
  intros d.
  assert (DumpFails ≠ Written) as H1 by done.
  assert (append_to_json_file DumpFails [to_json (Item 2 url_xyz)] d
          = Returns (Some Unreadable, [Error_writing])) as H2
    by reflexivity.
  split; [exact H1|]. split; [exact H2|].
  destruct (append_to_json_file_failed_write _ _ _ _ _ H1 H2)
    as (_ & _ & H3).
  exact (proj2 (H3 eq_refl)).
Defined.

(** ** More on the loop *)

Lemma tick_grows t st st' r :
  tick t st = (st', r) →
  captured_urls st ⊆ captured_urls st'
  ∧ stdout st `prefix_of` stdout st'
  ∧ next_id (self st) ≤ next_id (self st').
Proof.
  unfold tick. case_bool_decide as Hnew.
  - intros [= <- <-]. split; [done|]. split; [done|]. lia.
  - destruct (new_items_of_spec (self st) (next_id (self st))
                (order t (filter_restaurant_urls (self st)
                            (get_all_links (page t)) ∖ captured_urls st)))
      as (items & E & _ & _).
    rewrite set_next_id_self in E. rewrite E.
    destruct (append_to_json_file _ _ _) as [[d l]|e];
      intros [= <- <-]; simpl.
    + split; [apply union_subseteq_l|]. split; [by exists items|]. lia.
    + split; [done|]. split; [by exists items|]. lia.
Qed.

(** X12.  Over any ticks the seen-set only grows, the records printed stay
    and are only added to, and [next_id] never decreases. *)
Theorem loop_grows ticks st st' e :
  loop ticks st = (st', e) →
  captured_urls st ⊆ captured_urls st'
  ∧ stdout st `prefix_of` stdout st'
  ∧ next_id (self st) ≤ next_id (self st').
Proof.
  revert st. induction ticks as [|t ticks IH]; intros st; simpl.
  - intros [= <- <-]. split; [done|]. split; [done|]. lia.
  - destruct (tick t st) as [st1 [e1|]] eqn:Et.
    + intros [= <- <-]. by apply (tick_grows t _ _ (Some e1)).
    + intros El. destruct (tick_grows _ _ _ _ Et) as (H1 & H2 & H3).
      destruct (IH _ El) as (H4 & H5 & H6).
      split; [set_solver|]. split; [by trans (stdout st1)|]. lia.
Qed.

Lemma loop_grows_witness :
  let st := start example_scraper None in
  let r := loop [example_tick example_links Written;
                 example_tick example_links OpenFails] st in
  loop [example_tick example_links Written;
        example_tick example_links OpenFails] st = (r.1, r.2)
  ∧ captured_urls st ⊆ captured_urls r.1
  ∧ stdout st `prefix_of` stdout r.1
  ∧ next_id (self st) ≤ next_id (self r.1).
Proof.
  intros st r.
  assert (loop [example_tick example_links Written;
                example_tick example_links OpenFails] st = (r.1, r.2)) as H
    by apply surjective_pairing.
  split; [exact H|]. exact (loop_grows _ _ _ _ H).
Defined.

(** X13.  After a tick that returned, a tick on the same page changes
    nothing: no id is used, nothing is printed, written or logged, whatever
    the fate of the write would have been. *)
Theorem tick_again_changes_nothing self d st t st1 t' :
  reachable self d st → tick t st = (st1, None) → page t' = page t →
  tick t' st1 = (st1, None).
Proof.
  intros [Hnum Htr]%reachable_consistent Et Hpage.
  destruct (tick_spec self t st st1 None Hnum Htr Et)
    as (c1 & _ & _ & [Hself _ _] & Hrun & _).
  destruct (Hrun eq_refl) as [_ Hcap].
  unfold tick. rewrite Hpage, Hself, filter_set_next_id, <-Hself.
  rewrite bool_decide_eq_true_2; [done|].
  rewrite Hcap. set_solver.
Qed.

Lemma tick_again_changes_nothing_witness :
  let st := start example_scraper None in
  let t := example_tick example_links DumpFails in
  let t' := example_tick example_links Written in
  reachable example_scraper None st
  ∧ tick t st = ((tick t st).1, None)
  ∧ page t' = page t
  ∧ tick t' (tick t st).1 = ((tick t st).1, None).
Proof.
  intros st t t'.
  assert (reachable example_scraper None st) as H1 by (by exists []).
  assert (tick t st = ((tick t st).1, None)) as H2
    by (vm_compute; reflexivity).
  assert (page t' = page t) as H3 by reflexivity.
  split; [exact H1|]. split; [exact H2|]. split; [exact H3|].
  exact (tick_again_changes_nothing _ _ _ _ _ _ H1 H2 H3).
Defined.

(** X14.  When the file parses to something other than an array, a tick
    that finds a new URL leaves the loop with the [AttributeError] of
    [extend]: one record per new URL was printed, and the file, the log and
    the seen-set are as before. *)
Theorem tick_fails_on_non_array self d st t v :
  reachable self d st →
  files st = Some (Parses v) → (∀ l, v ≠ JArr l) →
  filter_restaurant_urls self (get_all_links (page t)) ⊈ captured_urls st →
  ∃ st' ty,
    tick t st = (st', Some (AttributeError ty "extend"))
    ∧ files st' = files st
    ∧ log st' = log st
    ∧ captured_urls st' = captured_urls st
    ∧ length (stdout st')
      = (length (stdout st)
         + size (filter_restaurant_urls self (get_all_links (page t))
                 ∖ captured_urls st))%nat.
Proof.
  intros [Hnum Htr]%reachable_consistent Hfile Hv Hnew.
  destruct (tick t st) as [st' r] eqn:Et.
  destruct (tick_spec self t st st' r Hnum Htr Et)
    as (created & Hout & Hperm & _ & _ & Hcase).
  destruct Hcase as [(Hempty & _)|[_ Happ]].
  { destruct Hnew. intros c Hc.
    destruct (decide (c ∈ captured_urls st)) as [|Hn]; [done|].
    assert (c ∈ filter_restaurant_urls self (get_all_links (page t))
                ∖ captured_urls st) as Hin by (by apply elem_of_difference).
    rewrite Hempty in Hin. by apply elem_of_empty in Hin. }
  assert (captured_urls st' = captured_urls st) as Hcap.
  { revert Et. unfold tick. case_bool_decide; [by intros [= <- _]|].
    destruct (new_items_of _ _) as [s' its].
    rewrite Hfile. unfold append_to_json_file.
    destruct v; simpl; try (by intros [= <- _]). by destruct (Hv items). }
  assert (log st' = log st) as Hlog.
  { revert Et. unfold tick. case_bool_decide; [by intros [= <- _]|].
    destruct (new_items_of _ _) as [s' its].
    rewrite Hfile. unfold append_to_json_file.
    destruct v; simpl; try (by intros [= <- _]). by destruct (Hv items). }
  rewrite Hfile in Happ. unfold append_to_json_file in Happ.
  assert (length (stdout st')
          = (length (stdout st)
             + size (filter_restaurant_urls self (get_all_links (page t))
                     ∖ captured_urls st))%nat) as Hlen.
  { rewrite Hout, length_app. f_equal.
    rewrite <-(length_fmap url), Hperm. done. }
  destruct v; simpl in Happ; try (by destruct (Hv items));
    destruct Happ as [Hf ->]; eexists st', _;
    (split; [done|]); (split; [by rewrite Hf|]); done.
Qed.

Lemma tick_fails_on_non_array_witness :
  let d := Some (Parses (JObj [])) in
  let st := start example_scraper d in
  let t := example_tick example_links Written in
  reachable example_scraper d st
  ∧ files st = Some (Parses (JObj []))
  ∧ (∀ l, JObj [] ≠ JArr l)
  ∧ filter_restaurant_urls example_scraper (get_all_links (page t))
    ⊈ captured_urls st
  ∧ ∃ st' ty,
      tick t st = (st', Some (AttributeError ty "extend"))
      ∧ files st' = files st
      ∧ log st' = log st
      ∧ captured_urls st' = captured_urls st
      ∧ length (stdout st')
        = (length (stdout st)
           + size (filter_restaurant_urls example_scraper
                     (get_all_links (page t)) ∖ captured_urls st))%nat.
Proof.
  intros d st t.
  assert (reachable example_scraper d st) as H1 by (by exists []).
  assert (files st = Some (Parses (JObj []))) as H2 by reflexivity.
  assert (∀ l, JObj [] ≠ JArr l) as H3 by (intros l; discriminate).
  assert (filter_restaurant_urls example_scraper (get_all_links (page t))
          ⊈ captured_urls st) as H4.
  { intros H. apply (elem_of_empty (C := gset string) url_abc).
    apply H. compute_done. }
  split; [exact H1|]. split; [exact H2|]. split; [exact H3|].
  split; [exact H4|].
  exact (tick_fails_on_non_array _ _ _ _ _ H1 H2 H3 H4).
Defined.




(** X16.  A tick prints one record for each filtered URL that is not in the
    seen-set, and no other; their ids are consecutive from [next_id]. *)
Theorem tick_records_new_urls self0 d st t :
  reachable self0 d st →
  ∃ created,
    stdout (tick t st).1 = stdout st ++ created
    ∧ url <$> created
      ≡ₚ elements (filter_restaurant_urls self0 (get_all_links (page t))
                   ∖ captured_urls st)
    ∧ id <$> created
      = (fun k => next_id (self st) + Z.of_nat k) <$> seq 0 (length created).
Proof.
  intros [Hnum Htr]%reachable_consistent.
  destruct (tick t st) as [st' r] eqn:Et.
  destruct (tick_spec self0 t st st' r Hnum Htr Et)
    as (created & Hout & Hperm & [_ Hids' _] & _).
  exists created. split; [done|]. split; [done|].
  destruct Hnum as [Hself Hids _]. rewrite Hself. simpl.
  rewrite Hout, fmap_app, length_app, seq_app, fmap_app, <-Hids in Hids'.
  apply app_inv_head in Hids'. rewrite Hids'.
  replace (seq (0 + length (stdout st)) (length created))
    with (Nat.add (length (stdout st)) <$> seq 0 (length created))
    by (by rewrite fmap_add_seq, Nat.add_0_r).
  rewrite <-list_fmap_compose.
  apply list_fmap_ext. intros _ k _. simpl. lia.
Qed.

Lemma tick_records_new_urls_witness :
  let st := start example_scraper None in
  let t := example_tick example_links Written in
  reachable example_scraper None st
  ∧ ∃ created,
      stdout (tick t st).1 = stdout st ++ created
      ∧ url <$> created
        ≡ₚ elements (filter_restaurant_urls example_scraper
                       (get_all_links (page t)) ∖ captured_urls st)
      ∧ id <$> created
        = (fun k => next_id (self st) + Z.of_nat k)
            <$> seq 0 (length created).
Proof.
  intros st t.
  assert (reachable example_scraper None st) as H by (by exists []).
  split; [exact H|]. exact (tick_records_new_urls _ _ _ t H).
Defined.

(** ** The constructor *)

Lemma rstrip_slash_spec s :
  ∃ k, s = rstrip_slash s
           +:+ String.string_of_list_ascii (replicate k "/"%char)
       ∧ ∀ r, rstrip_slash s ≠ r +:+ "/".
Proof.
  induction s as [|c s (k & Hs & Hend)]; simpl.
  - exists 0%nat. split; [done|]. by intros [|].
  - destruct (rstrip_slash s) as [|a b] eqn:E.
    + case_bool_decide as Hc.
      * subst c. exists (S k). split; [simpl; by rewrite Hs at 1|].
        by intros [|].
      * exists k. split; [simpl; by rewrite Hs at 1|].
        intros [|x [|y r]] [=]; congruence.
    + exists k. split; [simpl; by rewrite Hs at 1|].
      intros [|x r]; [done|]. intros [= -> Hr]. by apply (Hend r).
Qed.

(** X17.  The constructor removes the slashes that end [base_url] and
    nothing else, so that [city_url] has one slash at the join. *)
Theorem init_base_url base city out :
  let s := __init__ base city out in
  (∃ k, base = base_url s
               +:+ String.string_of_list_ascii (replicate k "/"%char))
  ∧ (∀ r, base_url s ≠ r +:+ "/")
  ∧ city_url s = base_url s +:+ "/" +:+ str_lower city.
Proof.
  simpl. destruct (rstrip_slash_spec base) as (k & Hs & Hend).
  split; [by exists k|]. split; done.
Qed.

Lemma lower_lower x : Re.lower (Re.lower x) = Re.lower x.
Proof. destruct x as [[] [] [] [] [] [] [] []]; reflexivity. Qed.

Lemma str_lower_idemp s : str_lower (str_lower s) = str_lower s.
Proof.
  unfold str_lower. rewrite chars_of, <-list_fmap_compose. f_equal.
  apply list_fmap_ext. intros _ x _. apply lower_lower.
Qed.

(** X18.  The city is stored in lower case, and scrapers built from cities
    that differ in case only filter alike. *)
Theorem init_city_case base base' cty cty' out out' urls :
  same_fold cty cty' →
  str_lower (city (__init__ base cty out)) = city (__init__ base cty out)
  ∧ filter_restaurant_urls (__init__ base cty out) urls
    = filter_restaurant_urls (__init__ base' cty' out') urls.
Proof.
  intros H. split; [apply str_lower_idemp|].
  unfold filter_restaurant_urls. simpl. by rewrite H.
Qed.

Lemma init_city_case_witness :
  same_fold "BangAlore" "bangalore"
  ∧ filter_restaurant_urls (__init__ default_base_url "BangAlore" "a.json")
      example_links
    = filter_restaurant_urls example_scraper example_links.
Proof.
  assert (same_fold "BangAlore" "bangalore") as H by reflexivity.
  split; [exact H|].
  exact (proj2 (init_city_case default_base_url default_base_url _ _
                  "a.json" default_output_file example_links H)).
Defined.

(** ** The sitemap script *)

Lemma sitemap_backtrack_Some try lo n r :
  Sitemap.backtrack try lo n = Some r →
  ∃ m, (lo ≤ m ≤ n)%nat ∧ try m = Some r.
Proof.
  induction n as [|n IH]; simpl; case_bool_decide; try done.
  - destruct (try 0%nat) eqn:E; [|done]. intros [= <-].
    exists 0%nat. split; [lia|done].
  - destruct (try (S n)) eqn:E.
    + intros [= <-]. exists (S n). split; [lia|done].
    + intros H'. destruct (IH H') as (m & ? & ?). exists m. split; [lia|done].
Qed.

Lemma sitemap_count_prefix_take k s n :
  (n ≤ Sitemap.count_prefix k s)%nat →
  Forall (fun x => Sitemap.accepts k x = true) (take n s)
  ∧ length (take n s) = n.
Proof.
  revert n. induction s as [|c s IH]; intros n; simpl.
  - intros ?. assert (n = 0%nat) as -> by lia. by split.
  - destruct (Sitemap.accepts k c) eqn:E.
    + destruct n as [|n]; simpl; [by split|]. intros Hn.
      destruct (IH n) as [? ?]; [lia|]. split; [by constructor|lia].
    + intros ?. assert (n = 0%nat) as -> by lia. by split.
Qed.

Lemma sitemap_literal_run l q i s o c r :
  Sitemap.sre_match (((fun x => Re.Single (Re.Literal x)) <$> l) ++ q)
    i s o c = Some r →
  ∃ s', s = l ++ s' ∧ Sitemap.sre_match q (i + length l) s' o c = Some r.
Proof.
  revert i s. induction l as [|a l IH]; intros i s; simpl.
  - rewrite Nat.add_0_r. intros H. by exists s.
  - destruct s as [|x s]; [done|]. case_bool_decide as Hx; [|done].
    subst x. intros H. apply IH in H as (s' & -> & H).
    exists s'. split; [done|].
    by replace (i + S (length l))%nat with (S i + length l)%nat by lia.
Qed.

Lemma sitemap_pattern_match i s e g :
  Sitemap.sre_match Sitemap.pattern i s [] [] = Some (e, g) →
  ∃ slug rest,
    s = chars Sitemap.prefix ++ slug ++ "/"%char :: rest
    ∧ slug ≠ [] ∧ ("/"%char ∉ slug)
    ∧ g = [(i + length (chars Sitemap.prefix),
            i + length (chars Sitemap.prefix) + length slug)]%nat
    ∧ e = S (i + length (chars Sitemap.prefix) + length slug).
Proof.
  unfold Sitemap.pattern, Re.literals. intros H.
  apply sitemap_literal_run in H as (s1 & -> & H).
  set (j := (i + length (chars Sitemap.prefix))%nat) in *.
  change (Sitemap.backtrack
            (fun n => match drop n s1 with
                      | x :: s2 =>
                          if bool_decide (x = "/"%char)
                          then Some (S (j + n), [(j, (j + n)%nat)])
                          else None
                      | [] => None
                      end) 1 (Sitemap.count_prefix (Re.NotLiteral "/") s1)
          = Some (e, g)) in H.
  apply sitemap_backtrack_Some in H as (m & Hm & H).
  destruct (sitemap_count_prefix_take (Re.NotLiteral "/") s1 m)
    as [Hall Hlen]; [lia|].
  destruct (drop m s1) as [|x s2] eqn:Ed; [done|].
  case_bool_decide as Hx; [|done]. subst x. injection H as <- <-.
  exists (take m s1), s2. rewrite Hlen.
  split; [by rewrite <-Ed, take_drop|].
  split; [intros E; rewrite E in Hlen; simpl in Hlen; lia|].
  split; [|done].
  intros Hin. rewrite Forall_forall in Hall. by apply Hall in Hin.
Qed.

Lemma sitemap_findall_scan subject pre s skip x :
  subject = pre ++ s →
  x ∈ Sitemap.findall_scan Sitemap.pattern subject (length pre) s skip →
  ∃ a slug b,
    subject = a ++ chars Sitemap.prefix ++ slug ++ "/"%char :: b
    ∧ slug ≠ [] ∧ ("/"%char ∉ slug)
    ∧ x = String.string_of_list_ascii slug.
Proof.
  revert pre skip. induction s as [|c s IH]; intros pre skip Hsub.
  - destruct skip as [|skip]; cbn [Sitemap.findall_scan];
      [|by intros ?%elem_of_nil].
    destruct (Sitemap.sre_match Sitemap.pattern (length pre) [] [] [])
      as [[e g]|] eqn:E; [|by intros ?%elem_of_nil].
    apply sitemap_pattern_match in E as (slug & rest & E & _).
    assert (chars Sitemap.prefix ≠ []) as Hp by done.
    by destruct (chars Sitemap.prefix).
  - assert (subject = (pre ++ [c]) ++ s) as Hsub'
      by (by rewrite <-app_assoc).
    assert (S (length pre) = length (pre ++ [c])) as Hlen
      by (rewrite length_app; simpl; lia).
    destruct skip as [|skip]; cbn [Sitemap.findall_scan].
    + destruct (Sitemap.sre_match Sitemap.pattern (length pre) (c :: s) [] [])
        as [[e g]|] eqn:E.
      * intros [->|Hx]%elem_of_cons.
        -- apply sitemap_pattern_match in E
             as (slug & rest & E & Hne & Hsl & -> & _).
           exists pre, slug, rest. rewrite Hsub, E.
           split; [done|]. split; [done|]. split; [done|].
           unfold Re.group. cbn [Re.spans Re.subject pred lookup].
           simpl lookup. f_equal.
           rewrite (app_assoc pre), <-(length_app pre), drop_app_length.
           replace (length (pre ++ chars Sitemap.prefix) + length slug
                    - length (pre ++ chars Sitemap.prefix))%nat
             with (length slug) by lia.
           by rewrite take_app_length.
        -- rewrite Hlen in Hx. by apply (IH _ _ Hsub') in Hx.
      * rewrite Hlen. by apply IH.
    + rewrite Hlen. by apply IH.
Qed.

Lemma sitemap_imap (n : nat) (l : list string) :
  imap (fun index u =>
          {| id := Z.of_nat (n + index) + 1; url := Sitemap.prefix +:+ u |}) l
  = zip_with Item ((fun k => Z.of_nat k + 1) <$> seq n (length l))
      (String.app Sitemap.prefix <$> l).
Proof.
  revert n. induction l as [|u l IH]; intros n; [done|].
  rewrite imap_cons. simpl. rewrite Nat.add_0_r. f_equal.
  rewrite <-IH. apply imap_ext. intros k x _. simpl. do 2 f_equal. lia.
Qed.

Lemma zip_item_id (a : list Z) (b : list string) :
  length a = length b → id <$> zip_with Item a b = a.
Proof.
  revert b. induction a as [|x a IH]; intros [|y b]; simpl; try done.
  intros [= H]. by rewrite IH.
Qed.

Lemma zip_item_url (a : list Z) (b : list string) :
  length a = length b → url <$> zip_with Item a b = b.
Proof.
  revert b. induction a as [|x a IH]; intros [|y b]; simpl; try done.
  intros [= H]. by rewrite IH.
Qed.

Lemma sitemap_url_list_zip order xml :
  Sitemap.url_list order xml
  = zip_with Item
      ((fun k => Z.of_nat k + 1)
         <$> seq 0 (length (order (list_to_set
                                     (Sitemap.findall Sitemap.pattern xml)))))
      (String.app Sitemap.prefix
         <$> order (list_to_set (Sitemap.findall Sitemap.pattern xml))).
Proof. unfold Sitemap.url_list. apply (sitemap_imap 0). Qed.

(** X19.  Every slug [findall] returns for the pattern of the script is not
    empty, has no slash, and stands in the text between the prefix and a
    slash. *)
Theorem sitemap_findall_slugs xml slug :
  slug ∈ Sitemap.findall Sitemap.pattern xml →
  slug ≠ "" ∧ no_slash slug
  ∧ ∃ a b, xml = a +:+ Sitemap.prefix +:+ slug +:+ "/" +:+ b.
Proof.
  unfold Sitemap.findall. intros H.
  apply (sitemap_findall_scan (chars xml) [] (chars xml) 0 slug eq_refl) in H
    as (a & sl & b & E & Hne & Hsl & ->).
  split; [by destruct sl|]. split; [unfold no_slash; by rewrite chars_of|].
  exists (String.string_of_list_ascii a), (String.string_of_list_ascii b).
  rewrite <-(of_chars xml), E, !of_chars_app, of_chars. done.
Qed.

Lemma sitemap_findall_slugs_witness :
  "abc" ∈ Sitemap.findall Sitemap.pattern Sitemap.example_xml
  ∧ "abc" ≠ "" ∧ no_slash "abc"
  ∧ ∃ a b, Sitemap.example_xml
           = a +:+ Sitemap.prefix +:+ "abc" +:+ "/" +:+ b.
Proof.
  assert ("abc" ∈ Sitemap.findall Sitemap.pattern Sitemap.example_xml) as H
    by compute_done.
  split; [exact H|]. exact (sitemap_findall_slugs _ _ H).
Defined.

(** X20.  The records of the sitemap script are numbered 1, 2, 3 and so on,
    carry pairwise different URLs, one for each distinct slug found, and
    each URL is the prefix followed by a slug. *)
Theorem sitemap_url_list order xml :
  let out := Sitemap.url_list order xml in
  id <$> out = Z.of_nat <$> seq 1 (length out)
  ∧ NoDup (url <$> out)
  ∧ length out
    = size (list_to_set (Sitemap.findall Sitemap.pattern xml) : gset string)
  ∧ ∀ u, u ∈ url <$> out
         ↔ ∃ slug, slug ∈ Sitemap.findall Sitemap.pattern xml
                   ∧ u = Sitemap.prefix +:+ slug.
Proof.
  intros out. subst out. rewrite sitemap_url_list_zip.
  set (U := list_to_set (Sitemap.findall Sitemap.pattern xml) : gset string).
  assert (length ((fun k => Z.of_nat k + 1) <$> seq 0 (length (order U)))
          = length (String.app Sitemap.prefix <$> order U)) as Hlen
    by (by rewrite !length_fmap, length_seq).
  rewrite (zip_item_id _ _ Hlen), (zip_item_url _ _ Hlen).
  rewrite length_zip_with, !length_fmap, length_seq, Nat.min_id.
  split; [|split; [|split]].
  - rewrite <-fmap_S_seq, <-list_fmap_compose.
    apply list_fmap_ext. intros _ k _. simpl. lia.
  - apply NoDup_fmap_2; [apply _|].
    rewrite (visit_perm order U). apply NoDup_elements.
  - by rewrite (visit_perm order U).
  - intros u. rewrite list_elem_of_fmap. split.
    + intros (slug & -> & Hs). exists slug. split; [|done].
      rewrite (visit_perm order U) in Hs.
      by apply elem_of_elements, elem_of_list_to_set in Hs.
    + intros (slug & Hs & ->). exists slug. split; [done|].
      rewrite (visit_perm order U).
      by apply elem_of_elements, elem_of_list_to_set.
Qed.
